(** * The verifying client of drand (package [client], file [verify.go])

    A shallow embedding of [client/verify.go], [client/random.go] and the
    [Result]/[Client] interfaces of [client/interface.go], followed by the
    properties of the verification layer: the trust-chain walk
    [getTrustedPreviousSignature], the single-slot point-of-trust cache, the
    adapter [asRandomData], [verify], and the two entry points [Get] and
    [Watch].

    Conventions of the embedding.
    - [uint64] values are numbers of type [N]; the two places where the code
      does arithmetic on them ([round-1] and [trustRound++]) are written
      with their wrap-around modulo [2^64].
    - A Go byte slice is a [list byte]; [nil] and the empty slice are
      identified, except for [RandomData.PreviousSignature], which the code
      tests against [nil] and which is therefore an [option].
    - The wrapped clients are collaborators whose answers may change from
      one call to the next: they are transition functions on an abstract
      world [W].
    - Every call to a collaborator or to a primitive of package [chain]
      leaves an [Event] in the trace of the computation, so that "does not
      fetch" and "does not verify" are statements about traces.
    - The logger [v.log] is a diagnostic sink and is not modelled; the
      context [ctx] is threaded unchanged through every call and is not
      modelled either (no cancellation). *)

From Stdlib Require Import NArith List Bool String Lia.
From Stdlib Require Import Strings.Byte.
Import ListNotations.
Open Scope N_scope.

(** ** Bytes and machine integers *)

Definition bytes := list byte.

Fixpoint bytes_eqb (a b : bytes) : bool :=
  match a, b with
  | [], [] => true
  | x :: a', y :: b' => Byte.eqb x y && bytes_eqb a' b'
  | _, _ => false
  end.

Definition two64 : N := 2 ^ 64.

(** [x - 1] on [uint64]. *)
Definition dec64 (x : N) : N := (x + (two64 - 1)) mod two64.

(** [x + 1] on [uint64] (the statement [x++]). *)
Definition inc64 (x : N) : N := (x + 1) mod two64.

(** ** Package [chain]: the types the verifier uses

    Package [chain] is outside of the verifying client. Its two record
    types are given with the fields [verify.go] reads and writes; its
    functions are the fields of [Primitives], a parameter of the whole
    development. *)

Module chain.

Record Beacon := mkBeacon {
  PreviousSig : bytes;
  Round : N;
  Signature : bytes;
  SignatureV2 : bytes
}.

(** [PublicKey] is a [kyber.Point], kept here by its encoding. *)
Record Info := mkInfo {
  PublicKey : bytes;
  GroupHash : bytes
}.

(** [info.PublicKey.Clone()]: a copy of the point. *)
Definition Clone (p : bytes) : bytes := p.

End chain.

(** ** Errors *)

Inductive error : Type :=
| ExternalErr (msg : string)
    (* an error value made by a collaborator or by package chain *)
| CouldNotGetInfo (cause : error)
    (* "could not get info: %w" *)
| CouldNotGetRound (round : N) (cause : error)
    (* "could not get round %d: %w" *)
| VerifyingBeacon (cause : error)
    (* "verifying beacon: %w" *)
| UnexpectedTrustRound (round : N)
    (* "unexpected trust round %d" *)
| VerificationV2Failed (b : chain.Beacon) (cause : error)
    (* "verification v2 of %s failed: %w" *)
| VerificationV1Failed (b : chain.Beacon) (cause : error).
    (* "verification v1 of %s failed: %w" *)

Inductive Res (A : Type) : Type :=
| Ok (a : A)
| Err (e : error).
Arguments Ok {A} a.
Arguments Err {A} e.

Definition isOk {A} (r : Res A) : bool :=
  match r with Ok _ => true | Err _ => false end.

Module chainprim.

(** The functions of package [chain] called by the verifier. A
    verification returns [None] for Go's [nil] error. *)
Record Primitives := mkPrimitives {
  VerifyBeacon : bytes -> chain.Beacon -> option error;
  VerifyBeaconV2 : bytes -> chain.Beacon -> option error;
  RandomnessFromSignature : bytes -> bytes
}.

End chainprim.

(** ** [random.go]: [RandomData] *)

Record RandomData := mkRandomData {
  Rnd : N;
  Random : bytes;
  Sig : bytes;
  PreviousSignature : option bytes;
  SigV2 : bytes;
  version : N
}.

Definition RandomData_Round (r : RandomData) : N := Rnd r.

Definition RandomData_Signature (r : RandomData) : bytes :=
  if version r =? 2 then SigV2 r else Sig r.

Definition RandomData_Randomness (r : RandomData) : bytes := Random r.

(** The assignment [r.Random = x] through the pointer [r]. *)
Definition set_Random (r : RandomData) (x : bytes) : RandomData :=
  {| Rnd := Rnd r; Random := x; Sig := Sig r;
     PreviousSignature := PreviousSignature r;
     SigV2 := SigV2 r; version := version r |}.

(** ** [interface.go]: the [Result] interface

    A value of interface type [Result] is either a [*RandomData] (the case
    the type assertion to a pointer to [RandomData] recognises) or a value of some
    other implementation, given by what its three methods return.
    [oPrevious] is the optional capability [resultWithPreviousSignature]:
    [None] when the dynamic type has no [PreviousSignature] method,
    [Some p] when it has one that returns [p] ([p = None] for [nil]). *)

Record OtherResult := mkOther {
  oRound : N;
  oRandomness : bytes;
  oSignature : bytes;
  oPrevious : option (option bytes)
}.

Inductive Result : Type :=
| PtrRandomData (rd : RandomData)
| OtherImpl (o : OtherResult).

Definition Round (r : Result) : N :=
  match r with
  | PtrRandomData rd => RandomData_Round rd
  | OtherImpl o => oRound o
  end.

Definition Randomness (r : Result) : bytes :=
  match r with
  | PtrRandomData rd => RandomData_Randomness rd
  | OtherImpl o => oRandomness o
  end.

Definition Signature (r : Result) : bytes :=
  match r with
  | PtrRandomData rd => RandomData_Signature rd
  | OtherImpl o => oSignature o
  end.

(** ** Events *)

Inductive Which := Direct | Indirect.

Inductive Event : Type :=
| EvInfo                              (* v.indirectClient.Info(ctx) *)
| EvGet (c : Which) (round : N)       (* v.Client.Get / v.indirectClient.Get *)
| EvWatch                             (* v.Client.Watch(ctx) *)
| EvVerifyBeacon (b : chain.Beacon)   (* chain.VerifyBeacon(ipk, &b) *)
| EvVerifyBeaconV2 (b : chain.Beacon) (* chain.VerifyBeaconV2(ipk, &b) *).

(** A fetch of chain metadata is not a fetch of a round. *)
Definition isRoundFetch (e : Event) : bool :=
  match e with EvGet _ _ => true | _ => false end.

Definition isVerification (e : Event) : bool :=
  match e with EvVerifyBeacon _ | EvVerifyBeaconV2 _ => true | _ => false end.

Definition isV1Verification (e : Event) : bool :=
  match e with EvVerifyBeacon _ => true | _ => false end.

Definition isChainWalkFetch (e : Event) : bool :=
  match e with EvGet Indirect _ => true | _ => false end.

(** The round an event is about, for the events that are about one. *)
Definition eventRound (e : Event) : option N :=
  match e with
  | EvGet _ r => Some r
  | EvVerifyBeacon b | EvVerifyBeaconV2 b => Some (chain.Round b)
  | _ => None
  end.

Section VerifyingClient.

(** The state of everything outside of the client: the network and the
    servers behind the wrapped clients. *)
Context {W : Type}.

(** The primitives of package [chain]. *)
Variable prims : chainprim.Primitives.

(** ** The [Client] interface, as the verifier uses it *)

Record Client := mkClient {
  cGet : W -> N -> Res Result * W;
  cWatch : W -> list Result * W;
  cInfo : W -> Res chain.Info * W
}.

(** ** [verifyingClient]

    [vClient] is the embedded field [Client] (the wrapped client); the
    mutex [potLk] and the logger [log] are not modelled. *)

Record verifyingClient := mkVerifyingClient {
  vClient : Client;
  indirectClient : Client;
  pointOfTrust : option Result;
  strict : bool;
  v2from : N
}.

Definition newVerifyingClient (c : Client) (previousResult : option Result)
    (strict : bool) (v2from : N) : verifyingClient :=
  {| vClient := c;
     indirectClient := c;
     pointOfTrust := previousResult;
     strict := strict;
     v2from := v2from |}.

(** The assignment [v.pointOfTrust = x]. *)
Definition set_pointOfTrust (v : verifyingClient) (x : option Result)
    : verifyingClient :=
  {| vClient := vClient v;
     indirectClient := indirectClient v;
     pointOfTrust := x;
     strict := strict v;
     v2from := v2from v |}.

(** ** Computations: state, errors and a trace *)

Record St := mkSt { self : verifyingClient; world : W }.

Definition M (A : Type) : Type := St -> Res A * St * list Event.

Definition ret {A} (a : A) : M A := fun s => (Ok a, s, []).

Definition fail {A} (e : error) : M A := fun s => (Err e, s, []).

Definition bind {A B} (m : M A) (f : A -> M B) : M B :=
  fun s =>
    match m s with
    | (Ok a, s1, t1) =>
        match f a s1 with
        | (r, s2, t2) => (r, s2, t1 ++ t2)
        end
    | (Err e, s1, t1) => (Err e, s1, t1)
    end.

(** Runs [m] and hands its error, if any, to the caller as a value: the
    pattern [if err := m; err != nil { ... continue }]. *)
Definition attempt {A} (m : M A) : M (Res A) :=
  fun s => match m s with (r, s1, t1) => (Ok r, s1, t1) end.

(** Go's [x, err := f(); if err != nil { return wrap(err) }]. *)
Definition orWrap {A} (wrap : error -> error) (m : M A) : M A :=
  fun s =>
    match m s with
    | (Ok a, s1, t1) => (Ok a, s1, t1)
    | (Err e, s1, t1) => (Err (wrap e), s1, t1)
    end.


Notation "x <- m ;; k" := (bind m (fun x => k))
  (at level 61, m at next level, right associativity).

(** *** Calls to the collaborators and to the primitives *)

(** [v.indirectClient.Info(ctx)] *)
Definition callInfo : M chain.Info :=
  fun s =>
    match cInfo (indirectClient (self s)) (world s) with
    | (r, w) => (r, mkSt (self s) w, [EvInfo])
    end.

Definition clientOf (v : verifyingClient) (c : Which) : Client :=
  match c with Direct => vClient v | Indirect => indirectClient v end.

(** [v.Client.Get(ctx, round)] and [v.indirectClient.Get(ctx, round)] *)
Definition callGet (c : Which) (round : N) : M Result :=
  fun s =>
    match cGet (clientOf (self s) c) (world s) round with
    | (r, w) => (r, mkSt (self s) w, [EvGet c round])
    end.

(** [v.Client.Watch(ctx)]: the items the channel carries until it is
    closed. *)
Definition callWatch : M (list Result) :=
  fun s =>
    match cWatch (vClient (self s)) (world s) with
    | (l, w) => (Ok l, mkSt (self s) w, [EvWatch])
    end.

Definition errOf (o : option error) : Res unit :=
  match o with None => Ok tt | Some e => Err e end.

(** [chain.VerifyBeacon(ipk, &b)] *)
Definition callVerifyBeacon (ipk : bytes) (b : chain.Beacon) : M unit :=
  fun s => (errOf (chainprim.VerifyBeacon prims ipk b), s, [EvVerifyBeacon b]).

(** [chain.VerifyBeaconV2(ipk, &b)] *)
Definition callVerifyBeaconV2 (ipk : bytes) (b : chain.Beacon) : M unit :=
  fun s =>
    (errOf (chainprim.VerifyBeaconV2 prims ipk b), s, [EvVerifyBeaconV2 b]).

(** Reads of the receiver [v]. *)
Definition readSelf : M verifyingClient := fun s => (Ok (self s), s, []).

(** [v.potLk.Lock(); v.pointOfTrust = x; v.potLk.Unlock()] *)
Definition writePointOfTrust (x : option Result) : M unit :=
  fun s => (Ok tt, mkSt (set_pointOfTrust (self s) x) (world s), []).

(** ** [asRandomData] *)

Definition asRandomData (v : verifyingClient) (r : Result) : RandomData :=
  match r with
  | PtrRandomData rd => rd
  | OtherImpl o =>
      let s := Signature r in
      let above := v2from v <=? Round r in
      {| Rnd := Round r;
         Random := Randomness r;
         Sig := if above then [] else s;
         PreviousSignature :=
           match oPrevious o with Some p => p | None => None end;
         SigV2 := if above then s else [];
         version := if above then 2 else 0 |}
  end.

(** ** [getTrustedPreviousSignature] *)

(** The loop [for trustRound < round-1 { ... }] on its three variables
    [trustRound], [trustPrevSig] and [next]. Every turn increases
    [trustRound], which stays below [round-1]: [fuel] bounds the number
    of turns, see [walkLoop_unfold]. *)
Fixpoint walkLoop (fuel : nat) (info : chain.Info) (round : N)
    (trustRound : N) (trustPrevSig : bytes) (next : option Result)
    : M (N * bytes * option Result) :=
  match fuel with
  | O => ret (trustRound, trustPrevSig, next)
  | S fuel' =>
      if trustRound <? dec64 round then
        let trustRound := inc64 trustRound in
        nxt <- orWrap (CouldNotGetRound trustRound)
                 (callGet Indirect trustRound) ;;
        let b := {| chain.PreviousSig := trustPrevSig;
                    chain.Round := trustRound;
                    chain.Signature := Signature nxt;
                    chain.SignatureV2 := [] |} in
        let ipk := chain.Clone (chain.PublicKey info) in
        _ <- orWrap VerifyingBeacon (callVerifyBeacon ipk b) ;;
        walkLoop fuel' info round trustRound (Signature nxt) (Some nxt)
      else ret (trustRound, trustPrevSig, next)
  end.

(** The turns the loop can take from [trustRound]. *)
Definition walkFuel (round trustRound : N) : nat :=
  N.to_nat (dec64 round - trustRound).

(** The walk from its starting anchor [(trustRound, trustPrevSig)]: the
    loop, the write of the cache and the final test. *)
Definition walkFrom (info : chain.Info) (round : N) (anchor : N * bytes)
    : M bytes :=
  let initialTrustRound := fst anchor in
  fin <- walkLoop (walkFuel round (fst anchor)) info round
           (fst anchor) (snd anchor) None ;;
  let trustRound := fst (fst fin) in
  let trustPrevSig := snd (fst fin) in
  let next := snd fin in
  _ <- (if (trustRound =? dec64 round) && (initialTrustRound <? trustRound)
        then writePointOfTrust next
        else ret tt) ;;
  if negb (trustRound =? dec64 round)
  then fail (UnexpectedTrustRound trustRound)
  else ret trustPrevSig.

(** The body of [getTrustedPreviousSignature], with the function it
    calls recursively as [rec]. *)
Definition walkBody (rec : N -> M bytes) (round : N) : M bytes :=
  info <- orWrap CouldNotGetInfo callInfo ;;
  if round =? 1 then ret (chain.GroupHash info)
  else
    v <- readSelf ;;
    anchor <-
      match pointOfTrust v with
      | None =>
          (* slow path *)
          ps <- rec 1 ;; ret (1, ps)
      | Some pot =>
          if round <? Round pot then
            (* slow path *)
            ps <- rec 1 ;; ret (1, ps)
          else ret (Round pot, Signature pot)
      end ;;
    walkFrom info round anchor.

(** The recursion is one call deep (the call is for round 1, which
    returns before it recurses): two unfoldings of the body are the
    function, see [getTrustedPreviousSignature_unfold]. *)
Fixpoint walkRec (depth : nat) : N -> M bytes :=
  match depth with
  | O => fun _ => fail (ExternalErr "recursion depth")
  | S d => walkBody (walkRec d)
  end.

Definition getTrustedPreviousSignature : N -> M bytes := walkRec 2.

(** ** [verify] *)

(** A [[]byte] that may be [nil], where only its content is read. *)
Definition sliceOf (o : option bytes) : bytes :=
  match o with Some b => b | None => [] end.

Definition isNil (o : option bytes) : bool :=
  match o with Some _ => false | None => true end.

(** [verify] returns the value [r] points to when it returns without
    error. *)
Definition verify (info : chain.Info) (r : RandomData) : M RandomData :=
  v <- readSelf ;;
  ps <- (if (RandomData_Round r <? v2from v)
            && (strict v || isNil (PreviousSignature r))
         then getTrustedPreviousSignature (RandomData_Round r)
         else ret (sliceOf (PreviousSignature r))) ;;
  let ipk := chain.Clone (chain.PublicKey info) in
  if v2from v <=? RandomData_Round r then
    let b := {| chain.PreviousSig := ps;
                chain.Round := RandomData_Round r;
                chain.Signature := [];
                chain.SignatureV2 := SigV2 r |} in
    _ <- orWrap (VerificationV2Failed b) (callVerifyBeaconV2 ipk b) ;;
    ret (set_Random r (chainprim.RandomnessFromSignature prims (SigV2 r)))
  else
    let b := {| chain.PreviousSig := ps;
                chain.Round := RandomData_Round r;
                chain.Signature := RandomData_Signature r;
                chain.SignatureV2 := [] |} in
    _ <- orWrap (VerificationV1Failed b) (callVerifyBeacon ipk b) ;;
    ret (set_Random r (chainprim.RandomnessFromSignature prims (Sig r))).

(** ** [Get] *)

(** The returned [Result] is the pointer [rd], whose [Random] field
    [verify] has written. *)
Definition Get (round : N) : M Result :=
  info <- callInfo ;;
  r <- callGet Direct round ;;
  v <- readSelf ;;
  let rd := asRandomData v r in
  rd' <- verify info rd ;;
  ret (PtrRandomData rd').

(** ** [Watch] *)

(** What [outCh <- r] sends after [verify] has succeeded on
    [asRandomData(r)]. When [r] is a pointer to a [RandomData],
    [asRandomData] returns that same pointer, so the value [r] points to
    is the one [verify] has written ([rd']); any other [r] was copied by
    [asRandomData] and is sent as it came. *)
Definition sent (r : Result) (rd' : RandomData) : Result :=
  match r with
  | PtrRandomData _ => PtrRandomData rd'
  | OtherImpl _ => r
  end.

(** The goroutine [for r := range inCh { ... }], on the items [inCh]
    carries until it is closed; the result is what was sent on [outCh]
    before [close(outCh)]. *)
Fixpoint watchLoop (info : chain.Info) (inCh : list Result)
    : M (list Result) :=
  match inCh with
  | [] => ret []
  | r :: rest =>
      v <- readSelf ;;
      res <- attempt (verify info (asRandomData v r)) ;;
      match res with
      | Err _ =>
          (* skipping invalid watch round *)
          watchLoop info rest
      | Ok rd' =>
          out <- watchLoop info rest ;;
          ret (sent r rd' :: out)
      end
  end.

(** The result is what the returned channel carries until it is
    closed (by [close(outCh)] at once, or by the goroutine when [inCh] is
    closed). *)
Definition Watch : M (list Result) :=
  i <- attempt callInfo ;;
  match i with
  | Err _ =>
      (* could not get info: close(outCh) *)
      ret []
  | Ok info =>
      inCh <- callWatch ;;
      watchLoop info inCh
  end.

End VerifyingClient.

(** ** Notions the properties are stated with *)

Section Notions.

Context {W : Type}.
Variable prims : chainprim.Primitives.

(** A client that answers a request for round [n] with a result whose
    round is [n]. *)
Definition answersAskedRound (c : @Client W) : Prop :=
  forall w n r w', cGet c w n = (Ok r, w') -> Round r = n.

(** A client whose chain metadata, when it can be fetched, are [ci]. *)
Definition servesInfo (c : @Client W) (ci : chain.Info) : Prop :=
  forall w i w', cInfo c w = (Ok i, w') -> i = ci.

(** A client whose answer to a request does not depend on when the
    request is made. *)
Definition sameInfoAlways (c : @Client W) : Prop :=
  forall w w', fst (cInfo c w) = fst (cInfo c w').

Definition sameRoundAlways (c : @Client W) : Prop :=
  forall w w' n, fst (cGet c w n) = fst (cGet c w' n).

(** The round the walk for [round] starts from, given the cache. *)
Definition anchorRound (pot : option Result) (round : N) : N :=
  match pot with
  | None => 1
  | Some p => if round <? Round p then 1 else Round p
  end.

(** The link [chain.VerifyBeacon] is asked to check in the walk. *)
Definition linkOf (prev : bytes) (round : N) (sig : bytes) : chain.Beacon :=
  {| chain.PreviousSig := prev; chain.Round := round;
     chain.Signature := sig; chain.SignatureV2 := [] |}.

(** One turn of the loop: it ends, or the fetch fails, or the link is
    refused, or the loop goes on from the next round. *)
Inductive turn (info : chain.Info) (round : N) (tr : N) (ps : bytes)
    (next : option Result) (s : @St W)
    (rest : N -> bytes -> option Result -> @St W ->
            Res (N * bytes * option Result) * @St W * list Event)
    : Res (N * bytes * option Result) * @St W * list Event -> Prop :=
| turn_done :
    (tr <? dec64 round) = false ->
    turn info round tr ps next s rest (Ok (tr, ps, next), s, [])
| turn_nofetch e w1 :
    (tr <? dec64 round) = true ->
    cGet (indirectClient (self s)) (world s) (inc64 tr) = (Err e, w1) ->
    turn info round tr ps next s rest
      (Err (CouldNotGetRound (inc64 tr) e), mkSt (self s) w1,
       [EvGet Indirect (inc64 tr)])
| turn_refused nxt w1 e :
    (tr <? dec64 round) = true ->
    cGet (indirectClient (self s)) (world s) (inc64 tr) = (Ok nxt, w1) ->
    chainprim.VerifyBeacon prims (chain.PublicKey info)
      (linkOf ps (inc64 tr) (Signature nxt)) = Some e ->
    turn info round tr ps next s rest
      (Err (VerifyingBeacon e), mkSt (self s) w1,
       [EvGet Indirect (inc64 tr);
        EvVerifyBeacon (linkOf ps (inc64 tr) (Signature nxt))])
| turn_on nxt w1 r s' t :
    (tr <? dec64 round) = true ->
    cGet (indirectClient (self s)) (world s) (inc64 tr) = (Ok nxt, w1) ->
    chainprim.VerifyBeacon prims (chain.PublicKey info)
      (linkOf ps (inc64 tr) (Signature nxt)) = None ->
    rest (inc64 tr) (Signature nxt) (Some nxt) (mkSt (self s) w1)
      = (r, s', t) ->
    turn info round tr ps next s rest
      (r, s',
       EvGet Indirect (inc64 tr)
       :: EvVerifyBeacon (linkOf ps (inc64 tr) (Signature nxt)) :: t).

(** The events of the loop of a walk: fetches from the indirect client
    and v1 verifications, for rounds above [lo] and up to [hi]. *)
Definition walkEvent (lo hi : N) (e : Event) : Prop :=
  match e with
  | EvGet Indirect n => lo < n /\ n <= hi
  | EvVerifyBeacon b => lo < chain.Round b /\ chain.Round b <= hi
  | _ => False
  end.

(** The events of a walk: those of its loop, and fetches of the chain
    metadata. *)
Definition walkOrInfoEvent (lo hi : N) (e : Event) : Prop :=
  e = EvInfo \/ walkEvent lo hi e.

(** A computation after the events [t0]. *)
Definition prepend {A} (t0 : list Event)
    (x : Res A * @St W * list Event) : Res A * @St W * list Event :=
  (fst (fst x), snd (fst x), t0 ++ snd x).

(** The condition of the slow path of the walk. *)
Definition slowPath (pot : option Result) (round : N) : bool :=
  match pot with
  | None => true
  | Some p => round <? Round p
  end.

(** The choice of the anchor in a walk for [round] that has fetched the
    chain metadata and left the world in [w1]: the cached result, or
    round 1 and the group hash of the metadata fetched once more. *)
Inductive anchored (s : @St W) (round : N) (w1 : W)
    : N * bytes -> @St W -> list Event -> Prop :=
| anchored_cache pot :
    pointOfTrust (self s) = Some pot ->
    slowPath (pointOfTrust (self s)) round = false ->
    anchored s round w1 (Round pot, Signature pot)
      (mkSt (self s) w1) [EvInfo]
| anchored_genesis info2 w2 :
    slowPath (pointOfTrust (self s)) round = true ->
    cInfo (indirectClient (self s)) w1 = (Ok info2, w2) ->
    anchored s round w1 (1, chain.GroupHash info2)
      (mkSt (self s) w2) [EvInfo; EvInfo].

(** The runs of [getTrustedPreviousSignature round] from [s]. *)
Inductive walked (round : N) (s : @St W)
    : Res bytes * @St W * list Event -> Prop :=
| walked_noinfo e w1 :
    cInfo (indirectClient (self s)) (world s) = (Err e, w1) ->
    walked round s (Err (CouldNotGetInfo e), mkSt (self s) w1, [EvInfo])
| walked_one info w1 :
    cInfo (indirectClient (self s)) (world s) = (Ok info, w1) ->
    round = 1 ->
    walked round s
      (Ok (chain.GroupHash info), mkSt (self s) w1, [EvInfo])
| walked_noinfo_again info w1 e w2 :
    cInfo (indirectClient (self s)) (world s) = (Ok info, w1) ->
    round <> 1 ->
    slowPath (pointOfTrust (self s)) round = true ->
    cInfo (indirectClient (self s)) w1 = (Err e, w2) ->
    walked round s
      (Err (CouldNotGetInfo e), mkSt (self s) w2, [EvInfo; EvInfo])
| walked_from info w1 a s0 t0 r s' t' :
    cInfo (indirectClient (self s)) (world s) = (Ok info, w1) ->
    round <> 1 ->
    anchored s round w1 a s0 t0 ->
    walkFrom prims info round a s0 = (r, s', t') ->
    walked round s (r, s', t0 ++ t').

(** Every event of [t] that is about a round is about a round above [R]. *)
Definition onlyRoundsAbove (R : N) (t : list Event) : Prop :=
  Forall (fun e => forall n, eventRound e = Some n -> R < n) t.

(** [linked pk a b]: from the round and signature [a], a chain of links
    of consecutive rounds, each accepted by the v1 primitive under the
    key [pk], leads to the round and signature [b]. *)
Inductive linked (pk : bytes) (a : N * bytes) : N * bytes -> Prop :=
| linked_here : linked pk a a
| linked_next n s s' :
    linked pk a (n, s) ->
    chainprim.VerifyBeacon prims pk (linkOf s (n + 1) s') = None ->
    linked pk a (n + 1, s').

(** The signature of [r] is linked to the genesis identifier of [ci],
    taken by the walk as the anchor of round 1. *)
Definition verifiedToGenesis (ci : chain.Info) (r : Result) : Prop :=
  linked (chain.PublicKey ci) (1, chain.GroupHash ci)
    (Round r, Signature r).

(** The signature of [r] is linked to the genesis identifier or to the
    result [seed] the client was constructed with. *)
Definition verifiedToAnchor (ci : chain.Info) (seed : option Result)
    (r : Result) : Prop :=
  verifiedToGenesis ci r \/
  exists r0, seed = Some r0 /\
    linked (chain.PublicKey ci) (Round r0, Signature r0)
      (Round r, Signature r).

(** [chained pk a b]: from the signature [a], a chain of links, each
    accepted by the v1 primitive under the key [pk] for some round and
    each naming the signature before it as its previous signature, leads
    to the signature [b]. *)
Inductive chained (pk : bytes) (a : bytes) : bytes -> Prop :=
| chained_here : chained pk a a
| chained_next s m s' :
    chained pk a s ->
    chainprim.VerifyBeacon prims pk (linkOf s m s') = None ->
    chained pk a s'.

(** The signature of [r] is chained to the genesis identifier of [ci] or
    to the signature of the result [seed] the client was constructed
    with. *)
Definition chainedToAnchor (ci : chain.Info) (seed : option Result)
    (r : Result) : Prop :=
  chained (chain.PublicKey ci) (chain.GroupHash ci) (Signature r) \/
  exists r0, seed = Some r0 /\
    chained (chain.PublicKey ci) (Signature r0) (Signature r).

(** The operations of a verifying client. *)
Inductive Op : Type :=
| OpGet (round : N)
| OpWatch
| OpWalk (round : N).

Definition stateAfter {A} (x : Res A * @St W * list Event) : @St W :=
  snd (fst x).

Definition runOp (op : Op) (s : @St W) : @St W :=
  match op with
  | OpGet round => stateAfter (Get prims round s)
  | OpWatch => stateAfter (Watch prims s)
  | OpWalk round => stateAfter (getTrustedPreviousSignature prims round s)
  end.

(** The states of a client made by [newVerifyingClient c seed strict
    v2from]: the one it is constructed in, and those its operations and
    the changes of the world lead to. *)
Inductive reachable (c : @Client W) (seed : option Result) (strict : bool)
    (v2from : N) : @St W -> Prop :=
| reach_new w :
    reachable c seed strict v2from
      (mkSt (newVerifyingClient c seed strict v2from) w)
| reach_op s op :
    reachable c seed strict v2from s ->
    reachable c seed strict v2from (runOp op s)
| reach_world s w :
    reachable c seed strict v2from s ->
    reachable c seed strict v2from (mkSt (self s) w).

(** The invariant of the cache of a client made from [c] and [seed]:
    what it holds is linked to the genesis identifier of [ci] or to
    [seed]. *)
Definition cacheInv (c : @Client W) (ci : chain.Info)
    (seed : option Result) (v : @verifyingClient W) : Prop :=
  indirectClient v = c /\
  forall r, pointOfTrust v = Some r -> verifiedToAnchor ci seed r.

(** The same invariant on the signatures alone. *)
Definition cacheChained (c : @Client W) (ci : chain.Info)
    (seed : option Result) (v : @verifyingClient W) : Prop :=
  indirectClient v = c /\
  forall r, pointOfTrust v = Some r -> chainedToAnchor ci seed r.

(** The condition under which [verify] calls the walk. *)
Definition walkNeeded (v : @verifyingClient W) (r : RandomData) : bool :=
  (RandomData_Round r <? v2from v)
  && (strict v || isNil (PreviousSignature r)).

(** The link [verify] builds for [r] with the previous signature [ps],
    the call of the primitive on it, and what [verify] returns after
    this call. *)
Definition finalLink (v : @verifyingClient W) (r : RandomData)
    (ps : bytes) : chain.Beacon :=
  if v2from v <=? Rnd r
  then {| chain.PreviousSig := ps; chain.Round := Rnd r;
          chain.Signature := []; chain.SignatureV2 := SigV2 r |}
  else {| chain.PreviousSig := ps; chain.Round := Rnd r;
          chain.Signature := RandomData_Signature r;
          chain.SignatureV2 := [] |}.

Definition finalEvent (v : @verifyingClient W) (r : RandomData)
    (ps : bytes) : Event :=
  if v2from v <=? Rnd r
  then EvVerifyBeaconV2 (finalLink v r ps)
  else EvVerifyBeacon (finalLink v r ps).

Definition finalResult (v : @verifyingClient W) (info : chain.Info)
    (r : RandomData) (ps : bytes) : Res RandomData :=
  let b := finalLink v r ps in
  if v2from v <=? Rnd r then
    match chainprim.VerifyBeaconV2 prims (chain.PublicKey info) b with
    | None =>
        Ok (set_Random r
              (chainprim.RandomnessFromSignature prims (SigV2 r)))
    | Some e => Err (VerificationV2Failed b e)
    end
  else
    match chainprim.VerifyBeacon prims (chain.PublicKey info) b with
    | None =>
        Ok (set_Random r (chainprim.RandomnessFromSignature prims (Sig r)))
    | Some e => Err (VerificationV1Failed b e)
    end.

(** An item of the output stream and the item of the input stream it
    is: the same value, or the same [RandomData] with its [Random]
    field written. *)
Definition sameItem (out inp : Result) : Prop :=
  match out, inp with
  | PtrRandomData x, PtrRandomData y => x = set_Random y (Random x)
  | OtherImpl x, OtherImpl y => x = y
  | _, _ => False
  end.

Definition notV2 (e : Event) : Prop :=
  match e with EvVerifyBeaconV2 _ => False | _ => True end.

(** The verdict of [verify] on each item of a stream in turn, each in
    the state the items before it have left. *)
Fixpoint verdicts (info : chain.Info) (inCh : list Result) (s : @St W)
    : list (Result * Res RandomData) :=
  match inCh with
  | [] => []
  | r :: rest =>
      let x := verify prims info (asRandomData (self s) r) s in
      (r, fst (fst x)) :: verdicts info rest (stateAfter x)
  end.

(** The items that passed, as they are sent. *)
Definition passed (l : list (Result * Res RandomData)) : list Result :=
  flat_map (fun x => match snd x with
                     | Ok rd' => [sent (fst x) rd']
                     | Err _ => []
                     end) l.

(** [r], as the adapter of [v] presents it to [verify], has a link the
    primitive of its scheme accepts under the key [pk] (the v2 primitive
    on the v2 slot at or after the threshold, the v1 primitive below). *)
Definition acceptedBy (v : @verifyingClient W) (pk : bytes) (r : Result)
    : Prop :=
  exists ps,
    if v2from v <=? Rnd (asRandomData v r)
    then chainprim.VerifyBeaconV2 prims pk
           (finalLink v (asRandomData v r) ps) = None
    else chainprim.VerifyBeacon prims pk
           (finalLink v (asRandomData v r) ps) = None.

(** The rounds [start], [start+1], ... ([len] of them). *)
Fixpoint rangeN (start : N) (len : nat) : list N :=
  match len with
  | O => []
  | S k => start :: rangeN (start + 1) k
  end.

(** The rounds a trace fetches from the indirect client, and the rounds
    of the links it gives to the v1 primitive, in the order of the
    trace. *)
Definition fetchedRounds (t : list Event) : list N :=
  flat_map (fun e => match e with
                     | EvGet Indirect n => [n]
                     | _ => []
                     end) t.

Definition verifiedRounds (t : list Event) : list N :=
  flat_map (fun e => match e with
                     | EvVerifyBeacon b => [chain.Round b]
                     | _ => []
                     end) t.

(** [r] with another previous-signature hint. *)
Definition set_PreviousSignature (r : RandomData) (h : option bytes)
    : RandomData :=
  {| Rnd := Rnd r; Random := Random r; Sig := Sig r;
     PreviousSignature := h;
     SigV2 := SigV2 r; version := version r |}.

Definition mapRes {A B} (f : A -> B) (r : Res A) : Res B :=
  match r with Ok a => Ok (f a) | Err e => Err e end.

End Notions.

Arguments Client W : clear implicits.
Arguments verifyingClient W : clear implicits.
Arguments St W : clear implicits.

(** ** A small chain to run the client on

    A chain whose signatures are two bytes long: the number of the round
    and the first byte of the signature the link names as its previous
    one. Both primitives accept exactly these signatures. The server
    serves the rounds 1 to 9 of the chain as the walk checks it: the link
    of round 2 names the group hash, the link of every later round names
    the signature of the round before. *)

Module Scenario.

Definition byteOf (n : N) : byte :=
  match Byte.of_N (n mod 256) with Some b => b | None => x00 end.

Definition sign (prev : bytes) (round : N) : bytes :=
  byteOf round :: firstn 1 prev.

Definition check (b : chain.Beacon) (sig : bytes) : option error :=
  if bytes_eqb sig (sign (chain.PreviousSig b) (chain.Round b))
  then None
  else Some (ExternalErr "invalid signature").

Definition prims : chainprim.Primitives :=
  {| chainprim.VerifyBeacon := fun _ b => check b (chain.Signature b);
     chainprim.VerifyBeaconV2 := fun _ b => check b (chain.SignatureV2 b);
     chainprim.RandomnessFromSignature := fun s => rev s |}.

Definition groupHash : bytes := [x00].

Definition info : chain.Info :=
  {| chain.PublicKey := [x2a]; chain.GroupHash := groupHash |}.

(** The signature of round [n] on the served chain. *)
Definition sigOf (n : N) : bytes :=
  if n <=? 2 then sign groupHash n else [byteOf n; byteOf (n - 1)].

(** What the server sends for round [n]: a result that is not a
    [RandomData], without previous signature, whose randomness bytes
    are not the ones derived from the signature. *)
Definition served (n : N) : Result :=
  OtherImpl {| oRound := n; oRandomness := [xff];
               oSignature := sigOf n; oPrevious := None |}.

(** The same round with a signature that was tampered with: no link
    accepts a signature of three bytes. *)
Definition tampered (n : N) : Result :=
  OtherImpl {| oRound := n; oRandomness := [xff];
               oSignature := [xee; xee; xee]; oPrevious := None |}.

(** A server without state: it answers every request for a round from 1
    to 9, its stream carries [stream], and its metadata are [info]. *)
Definition server (stream : list Result) : Client unit :=
  {| cGet := fun w n =>
       (if (1 <=? n) && (n <=? 9) then Ok (served n)
        else Err (ExternalErr "no such round"), w);
     cWatch := fun w => (stream, w);
     cInfo := fun w => (Ok info, w) |}.

(** A server whose metadata cannot be fetched. *)
Definition offline (stream : list Result) : Client unit :=
  {| cGet := cGet (server stream);
     cWatch := cWatch (server stream);
     cInfo := fun w => (Err (ExternalErr "unreachable"), w) |}.

(** A strict client with an empty cache; every round is below the v2
    threshold. *)
Definition start (c : Client unit) : St unit :=
  mkSt (newVerifyingClient c None true 1000) tt.

(** The state a computation ends in, and its trace. *)
Definition after {A} (x : Res A * St unit * list Event) : St unit :=
  snd (fst x).

Definition traceOf {A} (x : Res A * St unit * list Event) : list Event :=
  snd x.

Definition resultOf {A} (x : Res A * St unit * list Event) : Res A :=
  fst (fst x).

(** The strict client with an empty cache and the server without stream. *)
Definition s0 : St unit := start (server []).

(** A strict client constructed with the result [seed] as its point of
    trust. *)
Definition seeded (c : Client unit) (seed : Result) : St unit :=
  mkSt (newVerifyingClient c (Some seed) true 1000) tt.

(** Round 3 as [Get] returns it once verified. *)
Definition verified3 : Result :=
  PtrRandomData
    {| Rnd := 3; Random := [x02; x03]; Sig := [x03; x02];
       PreviousSignature := None; SigV2 := []; version := 0 |}.

(** Round 10 as a [RandomData] in the shape of the v1 scheme: signature in
    the v1 slot, no tag. *)
Definition plain10 : RandomData :=
  {| Rnd := 10; Random := []; Sig := [x0a; x09];
     PreviousSignature := Some [x09; x08]; SigV2 := []; version := 0 |}.

(** A client whose v2 threshold is round 5. *)
Definition v2client : verifyingClient unit :=
  newVerifyingClient (server []) None true 5.

End Scenario.

(** * Properties *)

Section Properties.

Context {W : Type}.
Variable prims : chainprim.Primitives.

Implicit Types (s : St W) (t : list Event) (round : N).

(** ** Arithmetic on [uint64] *)

Lemma two64_pos : 0 < two64.
Proof. reflexivity. Qed.

Lemma dec64_lt x : dec64 x < two64.
Proof. unfold dec64. apply N.mod_lt. discriminate. Qed.

Lemma dec64_pred x : 1 <= x -> x < two64 -> dec64 x = x - 1.
Proof.
  intros H1 H2. unfold dec64.
  replace (x + (two64 - 1)) with ((x - 1) + 1 * two64)
    by (pose proof two64_pos; lia).
  rewrite N.Div0.mod_add. apply N.mod_small. lia.
Qed.

Lemma dec64_below x : 1 <= x -> dec64 x < x.
Proof.
  intros H1. destruct (N.lt_ge_cases x two64) as [H2 | H2].
  - rewrite dec64_pred by assumption. lia.
  - pose proof (dec64_lt x). lia.
Qed.

Lemma inc64_succ x r : x < dec64 r -> inc64 x = x + 1.
Proof.
  intros H. unfold inc64. apply N.mod_small.
  pose proof (dec64_lt r). lia.
Qed.

Lemma dec64_succ x : 1 <= x -> x + 1 < two64 -> dec64 (x + 1) = x.
Proof. intros H1 H2. rewrite dec64_pred by lia. lia. Qed.

(** ** Computations *)

Lemma bind_inv {A B} (m : @M W A) (f : A -> @M W B) s r s' t :
  bind m f s = (r, s', t) ->
  (exists e, m s = (Err e, s', t) /\ r = Err e) \/
  (exists a s1 t1 t2,
      m s = (Ok a, s1, t1) /\ f a s1 = (r, s', t2) /\ t = t1 ++ t2).
Proof.
  unfold bind. destruct (m s) as [[[a | e] s1] t1].
  - destruct (f a s1) as [[r2 s2] t2] eqn:E. intros H.
    injection H as <- <- <-. right. exists a, s1, t1, t2. auto.
  - intros H. injection H as <- <- <-. left. exists e. auto.
Qed.

Lemma bind_ok {A B} (m : @M W A) (f : A -> @M W B) s a s1 t1 :
  m s = (Ok a, s1, t1) ->
  bind m f s = (fst (fst (f a s1)), snd (fst (f a s1)), t1 ++ snd (f a s1)).
Proof.
  intros H. unfold bind. rewrite H.
  destruct (f a s1) as [[r2 s2] t2]. reflexivity.
Qed.

Lemma bind_err {A B} (m : @M W A) (f : A -> @M W B) s e s1 t1 :
  m s = (Err e, s1, t1) -> bind m f s = (Err e, s1, t1).
Proof. intros H. unfold bind. rewrite H. reflexivity. Qed.

Lemma triple_eta {A} (x : Res A * St W * list Event) :
  x = (fst (fst x), snd (fst x), snd x).
Proof. destruct x as [[? ?] ?]. reflexivity. Qed.

(** ** The loop of the walk *)

Lemma walkLoop_turn fuel info round tr ps next s :
  turn prims info round tr ps next s (walkLoop prims fuel info round)
    (walkLoop prims (S fuel) info round tr ps next s).
Proof.
  cbn [walkLoop].
  destruct (tr <? dec64 round) eqn:Hlt; [| now apply turn_done].
  unfold bind at 1, orWrap at 1, callGet, clientOf.
  destruct (cGet (indirectClient (self s)) (world s) (inc64 tr))
    as [[nxt | e] w1] eqn:Hget; [| now apply turn_nofetch].
  unfold bind at 1, orWrap at 1, callVerifyBeacon, chain.Clone.
  fold (linkOf ps (inc64 tr) (Signature nxt)).
  destruct (chainprim.VerifyBeacon prims (chain.PublicKey info)
              (linkOf ps (inc64 tr) (Signature nxt))) as [e |] eqn:Hv;
    cbn [errOf].
  - cbn [app]. eapply turn_refused; eassumption.
  - destruct (walkLoop prims fuel info round (inc64 tr) (Signature nxt)
                (Some nxt) (mkSt (self s) w1)) as [[r s'] t] eqn:Hrest.
    cbn [app]. eapply turn_on; eassumption.
Qed.


Ltac loop_induction fuel info round :=
  let IH := fresh "IH" in
  let T := fresh "T" in
  induction fuel as [| fuel IH];
  intros tr ps next s r s' t H;
  [ cbn in H; injection H as <- <- <-
  | pose proof (walkLoop_turn fuel info round tr ps next s) as T;
    rewrite H in T; inversion T; subst; clear T ].

(** The loop never writes the receiver: neither the cache nor the
    configuration nor the wrapped clients. *)
Lemma walkLoop_self fuel info round :
  forall tr ps next s r s' t,
    walkLoop prims fuel info round tr ps next s = (r, s', t) ->
    self s' = self s.
Proof.
  loop_induction fuel info round; try reflexivity.
  match goal with
  | Hr : walkLoop _ _ _ _ _ _ _ _ = _ |- _ => apply IH in Hr; exact Hr
  end.
Qed.

Lemma walkEvent_weaken lo lo' hi e :
  lo' <= lo -> walkEvent lo hi e -> walkEvent lo' hi e.
Proof.
  intros Hle. destruct e as [| [|] n | | b | b]; cbn; try tauto; lia.
Qed.

(** The loop fetches and verifies the rounds after its starting round,
    up to [round-1], and nothing else. *)
Lemma walkLoop_events fuel info round :
  forall tr ps next s r s' t,
    walkLoop prims fuel info round tr ps next s = (r, s', t) ->
    Forall (walkEvent tr (dec64 round)) t.
Proof.
  loop_induction fuel info round;
    try match goal with
        | Hlt : (_ <? _) = true |- _ =>
            apply N.ltb_lt in Hlt; pose proof (inc64_succ _ _ Hlt) as Hinc
        end.
  - constructor.
  - constructor.
  - constructor; [cbn; rewrite Hinc; lia | constructor].
  - constructor; [cbn; rewrite Hinc; lia |].
    constructor; [cbn; rewrite Hinc; lia | constructor].
  - constructor; [cbn; rewrite Hinc; lia |].
    constructor; [cbn; rewrite Hinc; lia |].
    match goal with
    | Hr : walkLoop _ _ _ _ _ _ _ _ = _ |- _ => apply IH in Hr
    end.
    eapply Forall_impl; [| eassumption].
    intros e He. eapply walkEvent_weaken; [| exact He]. lia.
Qed.

(** With the fuel [walkFuel] gives it, the loop ends because its
    condition is false. *)
Lemma walkLoop_exit fuel info round :
  forall tr ps next s r s' t,
    (dec64 round - tr <= N.of_nat fuel) ->
    walkLoop prims fuel info round tr ps next s = (r, s', t) ->
    forall tr' ps' next', r = Ok (tr', ps', next') ->
    (tr' <? dec64 round) = false.
Proof.
  induction fuel as [| fuel IH]; intros tr ps next s r s' t Hfuel H.
  - cbn in H. injection H as <- <- <-. intros tr' ps' next' E.
    injection E as <- <- <-. apply N.ltb_ge. lia.
  - pose proof (walkLoop_turn fuel info round tr ps next s) as T.
    rewrite H in T. inversion T; subst; clear T;
      intros tr' ps' next' E; try discriminate.
    + injection E as <- <- <-. assumption.
    + match goal with
      | Hlt : (_ <? _) = true |- _ =>
          apply N.ltb_lt in Hlt; pose proof (inc64_succ _ _ Hlt) as Hinc
      end.
      assert (Hf : dec64 round - inc64 tr <= N.of_nat fuel)
        by (rewrite Hinc; lia).
      match goal with
      | Hr : walkLoop _ fuel _ _ _ _ _ _ = _ |- _ =>
          exact (IH _ _ _ _ _ _ _ Hf Hr _ _ _ E)
      end.
Qed.

(** What the loop returns when it returns without error. *)
Lemma walkLoop_ok fuel info round :
  forall tr ps next s r s' t,
    walkLoop prims fuel info round tr ps next s = (r, s', t) ->
    forall tr' ps' next', r = Ok (tr', ps', next') ->
    tr <= tr' /\
    (tr <= dec64 round -> tr' <= dec64 round) /\
    (tr' = tr -> ps' = ps /\ next' = next /\ s' = s /\ t = []) /\
    (tr < tr' ->
     exists n, next' = Some n /\ Signature n = ps' /\
               (answersAskedRound (indirectClient (self s)) ->
                Round n = tr')) /\
    (forall a, linked prims (chain.PublicKey info) a (tr, ps) ->
               linked prims (chain.PublicKey info) a (tr', ps')).
Proof.
  loop_induction fuel info round; intros tr' ps' next' E;
    try discriminate; try (injection E as <- <- <-).
  - repeat split; try lia; tauto.
  - repeat split; try lia; tauto.
  - match goal with
    | Hlt : (_ <? _) = true |- _ =>
        apply N.ltb_lt in Hlt; pose proof (inc64_succ _ _ Hlt) as Hinc
    end.
    match goal with
    | Hr : walkLoop _ _ _ _ _ _ _ _ = _ |- _ =>
        destruct (IH _ _ _ _ _ _ _ Hr _ _ _ E)
          as (Hle & Hup & Hsame & Hadv & Hlink)
    end.
    rewrite Hinc in *. cbn [self] in *.
    split; [lia |]. split; [intros _; apply Hup; lia |].
    split; [intros ->; lia |]. split.
    + intros _. destruct (N.eq_dec tr' (tr + 1)) as [-> | Hne].
      * destruct (Hsame eq_refl) as (-> & -> & _ & _).
        exists nxt. repeat split. intros Hh.
        match goal with
        | Hg : cGet _ _ _ = (Ok nxt, _) |- _ => apply Hh in Hg; exact Hg
        end.
      * apply Hadv. lia.
    + intros a La. apply Hlink. eapply linked_next; eassumption.
Qed.


(** The fuel is the right one: the loop satisfies the equation of the
    [for] statement. *)
Lemma walkLoop_unfold info round tr ps next s :
  walkLoop prims (walkFuel round tr) info round tr ps next s =
  (if tr <? dec64 round then
     bind (orWrap (CouldNotGetRound (inc64 tr))
             (callGet Indirect (inc64 tr)))
       (fun nxt =>
          bind (orWrap VerifyingBeacon
                  (callVerifyBeacon prims
                     (chain.Clone (chain.PublicKey info))
                     (linkOf ps (inc64 tr) (Signature nxt))))
            (fun _ =>
               walkLoop prims (walkFuel round (inc64 tr)) info round
                 (inc64 tr) (Signature nxt) (Some nxt)))
   else ret (tr, ps, next)) s.
Proof.
  destruct (tr <? dec64 round) eqn:Hlt.
  - apply N.ltb_lt in Hlt. pose proof (inc64_succ _ _ Hlt) as Hinc.
    assert (Hf : walkFuel round tr = S (walkFuel round (inc64 tr)))
      by (unfold walkFuel; rewrite Hinc; lia).
    rewrite Hf. cbn [walkLoop].
    apply N.ltb_lt in Hlt. rewrite Hlt. reflexivity.
  - destruct (walkFuel round tr); cbn [walkLoop]; [| rewrite Hlt];
      reflexivity.
Qed.

(** ** The walk from an anchor *)

Lemma walkFrom_eq info round a s :
  walkFrom prims info round a s =
  match walkLoop prims (walkFuel round (fst a)) info round
          (fst a) (snd a) None s with
  | (Err e, s1, t) => (Err e, s1, t)
  | (Ok (tr, ps, next), s1, t) =>
      if tr =? dec64 round then
        (Ok ps,
         if fst a <? tr
         then mkSt (set_pointOfTrust (self s1) next) (world s1)
         else s1,
         t)
      else (Err (UnexpectedTrustRound tr), s1, t)
  end.
Proof.
  unfold walkFrom, bind.
  destruct (walkLoop prims (walkFuel round (fst a)) info round
              (fst a) (snd a) None s) as [[[[[tr ps] next] | e] s1] t];
    [| reflexivity].
  cbn [fst snd].
  destruct (tr =? dec64 round); cbn [andb negb].
  - destruct (fst a <? tr); cbn; rewrite app_nil_r; reflexivity.
  - cbn. rewrite app_nil_r. reflexivity.
Qed.

(** A walk whose anchor is already at [round-1] or beyond takes no turn
    of the loop. *)
Lemma walkFrom_noloop info round tr0 ps0 s :
  dec64 round <= tr0 ->
  walkFrom prims info round (tr0, ps0) s =
  (if tr0 =? dec64 round then Ok ps0 else Err (UnexpectedTrustRound tr0),
   s, []).
Proof.
  intros Hle. rewrite walkFrom_eq. cbn [fst snd].
  replace (walkFuel round tr0) with O by (unfold walkFuel; lia).
  cbn [walkLoop ret]. rewrite N.ltb_irrefl.
  destruct (tr0 =? dec64 round); reflexivity.
Qed.

Lemma walkFrom_events info round a s r s' t :
  walkFrom prims info round a s = (r, s', t) ->
  Forall (walkEvent (fst a) (dec64 round)) t.
Proof.
  rewrite walkFrom_eq.
  destruct (walkLoop prims (walkFuel round (fst a)) info round
              (fst a) (snd a) None s) as [[lr s1] t1] eqn:Hloop.
  apply walkLoop_events in Hloop.
  destruct lr as [[[tr ps] next] | e].
  - destruct (tr =? dec64 round); intros H; injection H as <- <- <-;
      assumption.
  - intros H; injection H as <- <- <-; assumption.
Qed.

(** A walk that returns an error has not written the receiver. *)
Lemma walkFrom_err_self info round a s e s' t :
  walkFrom prims info round a s = (Err e, s', t) -> self s' = self s.
Proof.
  rewrite walkFrom_eq.
  destruct (walkLoop prims (walkFuel round (fst a)) info round
              (fst a) (snd a) None s) as [[lr s1] t1] eqn:Hloop.
  apply walkLoop_self in Hloop.
  destruct lr as [[[tr ps] next] | e1].
  - destruct (tr =? dec64 round); intros H; [discriminate |].
    injection H as <- <- <-. assumption.
  - intros H; injection H as <- <- <-; assumption.
Qed.

(** A walk that returns a signature either started at [round-1] and did
    nothing, or started below, reached [round-1] and wrote into the
    cache the last result it fetched, whose signature it returns. *)
Lemma walkFrom_ok info round tr0 ps0 s ps s' t :
  walkFrom prims info round (tr0, ps0) s = (Ok ps, s', t) ->
  (tr0 = dec64 round /\ ps = ps0 /\ s' = s /\ t = []) \/
  (tr0 < dec64 round /\
   exists n,
     self s' = set_pointOfTrust (self s) (Some n) /\
     Signature n = ps /\
     (answersAskedRound (indirectClient (self s)) ->
      Round n = dec64 round) /\
     (forall a, linked prims (chain.PublicKey info) a (tr0, ps0) ->
                linked prims (chain.PublicKey info) a
                  (dec64 round, ps))).
Proof.
  rewrite walkFrom_eq. cbn [fst snd].
  destruct (walkLoop prims (walkFuel round tr0) info round tr0 ps0 None s)
    as [[lr s1] t1] eqn:Hloop.
  destruct lr as [[[tr ps1] next] | e]; [| discriminate].
  destruct (walkLoop_ok _ _ _ _ _ _ _ _ _ _ Hloop _ _ _ eq_refl)
    as (Hle & _ & Hsame & Hadv & Hlink).
  pose proof (walkLoop_self _ _ _ _ _ _ _ _ _ _ Hloop) as Hself.
  destruct (tr =? dec64 round) eqn:Heq; [| discriminate].
  apply N.eqb_eq in Heq. subst tr.
  intros H. injection H as <- <- <-.
  destruct (N.eq_dec (dec64 round) tr0) as [E | NE].
  - left. destruct (Hsame E) as (-> & _ & -> & ->).
    rewrite <- E, N.ltb_irrefl. auto.
  - right. assert (Hlt : tr0 < dec64 round) by lia. split; [exact Hlt |].
    destruct (Hadv Hlt) as (n & -> & Hsig & Hround).
    exists n. apply N.ltb_lt in Hlt. rewrite Hlt. cbn [self].
    rewrite Hself. auto.
Qed.


(** ** [getTrustedPreviousSignature] *)

Lemma prepend_bind {A B} (m : @M W A) (f : A -> @M W B) s a s1 t1 :
  m s = (Ok a, s1, t1) -> bind m f s = prepend t1 (f a s1).
Proof. intros H. unfold prepend. apply bind_ok. exact H. Qed.

(** The call for round 1, whatever the function called recursively. *)
Lemma walkBody_one rec s :
  walkBody prims rec 1 s =
  match cInfo (indirectClient (self s)) (world s) with
  | (Ok info, w1) => (Ok (chain.GroupHash info), mkSt (self s) w1, [EvInfo])
  | (Err e, w1) => (Err (CouldNotGetInfo e), mkSt (self s) w1, [EvInfo])
  end.
Proof.
  unfold walkBody, bind, orWrap, callInfo.
  destruct (cInfo (indirectClient (self s)) (world s)) as [[info | e] w1];
    reflexivity.
Qed.

(** The walk, path by path. *)
Lemma walkBody_eq rec round s :
  walkBody prims rec round s =
  match cInfo (indirectClient (self s)) (world s) with
  | (Err e, w1) => (Err (CouldNotGetInfo e), mkSt (self s) w1, [EvInfo])
  | (Ok info, w1) =>
      if round =? 1
      then (Ok (chain.GroupHash info), mkSt (self s) w1, [EvInfo])
      else
        let slow :=
          match rec 1 (mkSt (self s) w1) with
          | (Err e, s2, t2) => (Err e, s2, EvInfo :: t2)
          | (Ok ps, s2, t2) =>
              prepend (EvInfo :: t2)
                (walkFrom prims info round (1, ps) s2)
          end in
        match pointOfTrust (self s) with
        | None => slow
        | Some pot =>
            if round <? Round pot then slow
            else prepend [EvInfo]
                   (walkFrom prims info round (Round pot, Signature pot)
                      (mkSt (self s) w1))
        end
  end.
Proof.
  unfold walkBody. unfold bind at 1, orWrap at 1, callInfo.
  destruct (cInfo (indirectClient (self s)) (world s)) as [[info | e] w1];
    [| reflexivity].
  destruct (round =? 1); [reflexivity |].
  unfold bind at 1, readSelf. cbn [self].
  set (s1 := mkSt (self s) w1).
  destruct (pointOfTrust (self s)) as [pot |];
    [destruct (round <? Round pot) |];
    unfold bind, ret, prepend;
    try (destruct (rec 1 s1) as [[[ps | e] s2] t2]; [| reflexivity]);
    match goal with
    | |- context [walkFrom prims info round ?a ?s0] =>
        destruct (walkFrom prims info round a s0) as [[r3 s3] t3]
    end;
    cbn; rewrite ?app_nil_r; reflexivity.
Qed.

(** Two unfoldings of the body are the recursive function. *)
Lemma getTrustedPreviousSignature_unfold round s :
  getTrustedPreviousSignature prims round s =
  walkBody prims (getTrustedPreviousSignature prims) round s.
Proof.
  unfold getTrustedPreviousSignature. cbn [walkRec].
  rewrite !walkBody_eq.
  destruct (cInfo (indirectClient (self s)) (world s)) as [[info | e] w1];
    [| reflexivity].
  destruct (round =? 1); [reflexivity |].
  cbv zeta. rewrite !walkBody_one. reflexivity.
Qed.

(** The walk, with its recursive call resolved. *)
Lemma walk_eq round s :
  getTrustedPreviousSignature prims round s =
  match cInfo (indirectClient (self s)) (world s) with
  | (Err e, w1) => (Err (CouldNotGetInfo e), mkSt (self s) w1, [EvInfo])
  | (Ok info, w1) =>
      if round =? 1
      then (Ok (chain.GroupHash info), mkSt (self s) w1, [EvInfo])
      else
        let slow :=
          match cInfo (indirectClient (self s)) w1 with
          | (Err e, w2) =>
              (Err (CouldNotGetInfo e), mkSt (self s) w2, [EvInfo; EvInfo])
          | (Ok info2, w2) =>
              prepend [EvInfo; EvInfo]
                (walkFrom prims info round (1, chain.GroupHash info2)
                   (mkSt (self s) w2))
          end in
        match pointOfTrust (self s) with
        | None => slow
        | Some pot =>
            if round <? Round pot then slow
            else prepend [EvInfo]
                   (walkFrom prims info round (Round pot, Signature pot)
                      (mkSt (self s) w1))
        end
  end.
Proof.
  rewrite getTrustedPreviousSignature_unfold, walkBody_eq.
  destruct (cInfo (indirectClient (self s)) (world s)) as [[info | e] w1];
    [| reflexivity].
  destruct (round =? 1); [reflexivity |].
  cbv zeta.
  unfold getTrustedPreviousSignature. cbn [walkRec].
  rewrite walkBody_one. cbn [self world].
  destruct (cInfo (indirectClient (self s)) w1) as [[info2 | e2] w2];
    reflexivity.
Qed.


Lemma walk_walked round s :
  walked prims round s (getTrustedPreviousSignature prims round s).
Proof.
  rewrite walk_eq.
  destruct (cInfo (indirectClient (self s)) (world s))
    as [[info | e] w1] eqn:Hinfo; [| now apply walked_noinfo].
  destruct (round =? 1) eqn:Hone.
  { apply N.eqb_eq in Hone. now apply walked_one. }
  apply N.eqb_neq in Hone. cbv zeta.
  assert (Hslow :
    slowPath (pointOfTrust (self s)) round = true ->
    walked prims round s
      match cInfo (indirectClient (self s)) w1 with
      | (Err e, w2) =>
          (Err (CouldNotGetInfo e), mkSt (self s) w2, [EvInfo; EvInfo])
      | (Ok info2, w2) =>
          prepend [EvInfo; EvInfo]
            (walkFrom prims info round (1, chain.GroupHash info2)
               (mkSt (self s) w2))
      end).
  { intros Hs.
    destruct (cInfo (indirectClient (self s)) w1)
      as [[info2 | e2] w2] eqn:Hinfo2.
    - unfold prepend.
      eapply walked_from; eauto using anchored_genesis, triple_eta.
    - eapply walked_noinfo_again; eauto. }
  destruct (pointOfTrust (self s)) as [pot |] eqn:Hpot.
  - destruct (round <? Round pot) eqn:Hgt.
    + apply Hslow. exact Hgt.
    + unfold prepend.
      assert (Ha : anchored s round w1 (Round pot, Signature pot)
                     (mkSt (self s) w1) [EvInfo]).
      { apply anchored_cache; [exact Hpot |]. rewrite Hpot. exact Hgt. }
      eapply walked_from; eauto using triple_eta.
  - apply Hslow. reflexivity.
Qed.

Lemma anchored_facts s round w1 a s0 t0 :
  anchored s round w1 a s0 t0 ->
  fst a = anchorRound (pointOfTrust (self s)) round /\
  self s0 = self s /\
  Forall (eq EvInfo) t0.
Proof.
  intros H. destruct H as [pot Hpot Hslow | info2 w2 Hslow Hinfo];
    cbn [fst self]; repeat split; auto.
  - rewrite Hpot in *. cbn in *. rewrite Hslow. reflexivity.
  - unfold anchorRound, slowPath in *.
    destruct (pointOfTrust (self s)); [rewrite Hslow |]; reflexivity.
Qed.


(** ** The cache and the errors of the walk *)

(** A walk changes nothing of the receiver but its cache. *)
Lemma walk_config round s r s' t :
  getTrustedPreviousSignature prims round s = (r, s', t) ->
  vClient (self s') = vClient (self s) /\
  indirectClient (self s') = indirectClient (self s) /\
  strict (self s') = strict (self s) /\
  v2from (self s') = v2from (self s).
Proof.
  intros H. pose proof (walk_walked round s) as Hw. rewrite H in Hw.
  inversion Hw; subst; clear Hw; cbn [self]; auto.
  match goal with
  | Ha : anchored _ _ _ _ _ _ |- _ =>
      apply anchored_facts in Ha; destruct Ha as (_ & Hs0 & _)
  end.
  match goal with
  | Hf : walkFrom _ _ _ ?a _ = _ |- _ =>
      destruct a as [tr0 ps0]; destruct r as [ps | e];
      [ apply walkFrom_ok in Hf;
        destruct Hf as [(_ & _ & -> & _) | (_ & n & -> & _)]
      | apply walkFrom_err_self in Hf; rewrite Hf ]
  end; rewrite ?Hs0; cbn; auto.
Qed.

(** C6. A trust-chain walk that returns an error (the chain metadata or
    a round could not be fetched, a link was refused, or the walk did
    not land on [round-1]) leaves the point-of-trust cache exactly as it
    was before the call; a walk that returns a signature has written the
    cache at most once, after its loop, with the last result it fetched
    and verified, whose signature it returns. *)
Theorem walk_error_keeps_cache round s r s' t :
  getTrustedPreviousSignature prims round s = (r, s', t) ->
  (forall e, r = Err e ->
     pointOfTrust (self s') = pointOfTrust (self s)) /\
  (forall ps, r = Ok ps ->
     pointOfTrust (self s') = pointOfTrust (self s) \/
     exists n, pointOfTrust (self s') = Some n /\ Signature n = ps).
Proof.
  intros H. pose proof (walk_walked round s) as Hw. rewrite H in Hw.
  inversion Hw; subst; clear Hw; cbn [self];
    try (split; intros; auto; discriminate).
  match goal with
  | Ha : anchored _ _ _ _ _ _ |- _ =>
      apply anchored_facts in Ha; destruct Ha as (_ & Hs0 & _)
  end.
  split.
  - intros e ->.
    match goal with
    | Hf : walkFrom _ _ _ _ _ = _ |- _ => apply walkFrom_err_self in Hf
    end.
    congruence.
  - intros ps ->.
    match goal with
    | Hf : walkFrom _ _ _ ?a _ = _ |- _ =>
        destruct a as [tr0 ps0]; apply walkFrom_ok in Hf;
        destruct Hf as [(_ & _ & -> & _) | (_ & n & Hs' & Hsig & _)]
    end.
    + left. congruence.
    + right. exists n. rewrite Hs'. cbn. auto.
Qed.

(** The loop of the walk does not write the cache, whatever its
    outcome. *)
Lemma walkLoop_keeps_cache fuel info round tr ps next s r s' t :
  walkLoop prims fuel info round tr ps next s = (r, s', t) ->
  pointOfTrust (self s') = pointOfTrust (self s).
Proof. intros H. apply walkLoop_self in H. congruence. Qed.

(** C10, as the code has it. When the cache holds a result whose round
    is the requested round [round >= 2], the walk fetches the chain
    metadata and nothing else: it fetches no round, calls no
    verification primitive and leaves the cache as it is. If the
    metadata could be fetched it returns the error "unexpected trust
    round"; if not, it returns the error of that fetch. *)
Theorem walk_at_cached_round round s pot :
  2 <= round ->
  pointOfTrust (self s) = Some pot ->
  Round pot = round ->
  getTrustedPreviousSignature prims round s =
  match cInfo (indirectClient (self s)) (world s) with
  | (Ok _, w1) =>
      (Err (UnexpectedTrustRound round), mkSt (self s) w1, [EvInfo])
  | (Err e, w1) =>
      (Err (CouldNotGetInfo e), mkSt (self s) w1, [EvInfo])
  end.
Proof.
  intros Hround Hpot Hsame. rewrite walk_eq.
  destruct (cInfo (indirectClient (self s)) (world s))
    as [[info | e] w1]; [| reflexivity].
  replace (round =? 1) with false by (symmetry; apply N.eqb_neq; lia).
  cbv zeta. rewrite Hpot, Hsame, N.ltb_irrefl.
  pose proof (dec64_below round ltac:(lia)) as Hbelow.
  rewrite walkFrom_noloop by lia.
  replace (round =? dec64 round) with false
    by (symmetry; apply N.eqb_neq; lia).
  reflexivity.
Qed.

(** ** [Get] and [Watch] when the chain metadata cannot be fetched *)

(** C7. If the fetch of the chain metadata fails with [e], [Get]
    returns [e] and [Watch] returns a channel that carries nothing; in
    both the fetch of the metadata is the only call made: no round is
    fetched and the stream of the wrapped client is not subscribed to. *)
Theorem no_info_no_result s e w1 :
  cInfo (indirectClient (self s)) (world s) = (Err e, w1) ->
  (forall round,
     Get prims round s = (Err e, mkSt (self s) w1, [EvInfo])) /\
  Watch prims s = (Ok [], mkSt (self s) w1, [EvInfo]).
Proof.
  intros H. split.
  - intros round. unfold Get. apply bind_err.
    unfold callInfo. rewrite H. reflexivity.
  - unfold Watch, bind, attempt, callInfo. rewrite H. reflexivity.
Qed.


(** ** [verify] *)

Lemma verify_eq info r s :
  verify prims info r s =
  if walkNeeded (self s) r then
    match getTrustedPreviousSignature prims (Rnd r) s with
    | (Err e, s1, t1) => (Err e, s1, t1)
    | (Ok ps, s1, t1) =>
        (finalResult prims (self s) info r ps, s1,
         t1 ++ [finalEvent (self s) r ps])
    end
  else
    (finalResult prims (self s) info r (sliceOf (PreviousSignature r)), s,
     [finalEvent (self s) r (sliceOf (PreviousSignature r))]).
Proof.
  assert (Hfin : forall ps s1,
    (if v2from (self s) <=? RandomData_Round r then
       bind (orWrap (VerificationV2Failed
                       {| chain.PreviousSig := ps;
                          chain.Round := RandomData_Round r;
                          chain.Signature := [];
                          chain.SignatureV2 := SigV2 r |})
               (callVerifyBeaconV2 prims
                  (chain.Clone (chain.PublicKey info))
                  {| chain.PreviousSig := ps;
                     chain.Round := RandomData_Round r;
                     chain.Signature := [];
                     chain.SignatureV2 := SigV2 r |}))
         (fun _ =>
            ret (set_Random r
                   (chainprim.RandomnessFromSignature prims (SigV2 r))))
     else
       bind (orWrap (VerificationV1Failed
                       {| chain.PreviousSig := ps;
                          chain.Round := RandomData_Round r;
                          chain.Signature := RandomData_Signature r;
                          chain.SignatureV2 := [] |})
               (callVerifyBeacon prims
                  (chain.Clone (chain.PublicKey info))
                  {| chain.PreviousSig := ps;
                     chain.Round := RandomData_Round r;
                     chain.Signature := RandomData_Signature r;
                     chain.SignatureV2 := [] |}))
         (fun _ =>
            ret (set_Random r
                   (chainprim.RandomnessFromSignature prims (Sig r)))))
      s1
    = (finalResult prims (self s) info r ps, s1,
       [finalEvent (self s) r ps])).
  { intros ps s1.
    unfold finalResult, finalEvent, finalLink, RandomData_Round,
      chain.Clone.
    destruct (v2from (self s) <=? Rnd r);
      unfold bind, orWrap, callVerifyBeaconV2, callVerifyBeacon, ret;
      match goal with
      | |- context [errOf ?o] => destruct o
      end; reflexivity. }
  unfold verify. unfold bind at 1, readSelf.
  unfold walkNeeded, RandomData_Round in *.
  destruct ((Rnd r <? v2from (self s))
            && (strict (self s) || isNil (PreviousSignature r))).
  - unfold bind at 1.
    destruct (getTrustedPreviousSignature prims (Rnd r) s)
      as [[[ps | e] s1] t1]; [| reflexivity].
    rewrite Hfin. reflexivity.
  - unfold bind at 1, ret at 1. rewrite Hfin. reflexivity.
Qed.

(** The walk begins with a fetch of the chain metadata. *)
Lemma walk_fetches_info round s :
  In EvInfo (snd (getTrustedPreviousSignature prims round s)).
Proof.
  pose proof (walk_walked round s) as Hw.
  inversion Hw; cbn [snd]; try (left; reflexivity).
  match goal with
  | Ha : anchored _ _ _ _ _ _ |- _ => destruct Ha
  end; left; reflexivity.
Qed.

Lemma finalEvent_not_info (v : verifyingClient W) r ps :
  finalEvent v r ps <> EvInfo.
Proof. unfold finalEvent. destruct (v2from v <=? Rnd r); discriminate. Qed.

Lemma finalLink_previous (v : verifyingClient W) r ps :
  chain.PreviousSig (finalLink v r ps) = ps.
Proof. unfold finalLink. destruct (v2from v <=? Rnd r); reflexivity. Qed.

(** C5. [verify] calls the trust-chain walk if and only if the round is
    below the v2 threshold and strict mode is on or the round carries no
    previous-signature hint. The walk is the only part of [verify] that
    fetches the chain metadata, and it always does, so the calls of the
    walk are read off the trace. When the walk is called, [verify] ends
    with its error or verifies the link whose previous signature is the
    one the walk returned; otherwise the link whose previous signature
    is the hint (absent or not) is the only thing [verify] touches. *)
Theorem verify_walks_iff info r s :
  (In EvInfo (snd (verify prims info r s)) <->
   (Rnd r <? v2from (self s))
   && (strict (self s) || isNil (PreviousSignature r)) = true) /\
  (walkNeeded (self s) r = true ->
   verify prims info r s =
   match getTrustedPreviousSignature prims (Rnd r) s with
   | (Err e, s1, t1) => (Err e, s1, t1)
   | (Ok ps, s1, t1) =>
       (finalResult prims (self s) info r ps, s1,
        t1 ++ [finalEvent (self s) r ps])
   end) /\
  (walkNeeded (self s) r = false ->
   verify prims info r s =
   (finalResult prims (self s) info r (sliceOf (PreviousSignature r)), s,
    [finalEvent (self s) r (sliceOf (PreviousSignature r))])) /\
  (forall ps, chain.PreviousSig (finalLink (self s) r ps) = ps).
Proof.
  rewrite verify_eq.
  change ((Rnd r <? v2from (self s))
          && (strict (self s) || isNil (PreviousSignature r)))
    with (walkNeeded (self s) r).
  destruct (walkNeeded (self s) r) eqn:Hw.
  - split; [| split; [| split]];
      auto using finalLink_previous; try discriminate.
    split; [reflexivity |].
    intros _. pose proof (walk_fetches_info (Rnd r) s) as Hin.
    destruct (getTrustedPreviousSignature prims (Rnd r) s)
      as [[[ps | e] s1] t1]; cbn [snd] in *; auto.
    apply in_or_app. left. exact Hin.
  - split; [| split; [| split]];
      auto using finalLink_previous; try discriminate.
    split; [| discriminate].
    cbn [snd]. intros [Hin | []].
    exfalso. exact (finalEvent_not_info _ _ _ Hin).
Qed.


(** The events of a walk: fetches of the chain metadata, and fetches
    and v1 verifications of the rounds after the anchor, up to
    [round-1]. *)
Lemma walk_events round s :
  Forall (walkOrInfoEvent (anchorRound (pointOfTrust (self s)) round)
            (dec64 round))
    (snd (getTrustedPreviousSignature prims round s)).
Proof.
  pose proof (walk_walked round s) as Hw.
  inversion Hw; cbn [snd];
    try (repeat constructor; fail).
  match goal with
  | Ha : anchored _ _ _ _ _ _ |- _ =>
      apply anchored_facts in Ha; destruct Ha as (Hfst & _ & Hinfo)
  end.
  apply Forall_app. split.
  - eapply Forall_impl; [| exact Hinfo]. intros e <-. left. reflexivity.
  - match goal with
    | Hf : walkFrom _ _ _ _ _ = _ |- _ => apply walkFrom_events in Hf
    end.
    rewrite <- Hfst.
    eapply Forall_impl; [| eassumption]. intros e He. right. exact He.
Qed.

Lemma walkOrInfoEvent_notV2 lo hi e : walkOrInfoEvent lo hi e -> notV2 e.
Proof.
  intros [-> | He]; [exact I |].
  destruct e as [| [|] n | | b | b]; cbn in *; auto.
Qed.

(** What [verify] writes into [r] when it succeeds. *)
Lemma verify_randomness info r s rd' s' t :
  verify prims info r s = (Ok rd', s', t) ->
  rd' = set_Random r
          (chainprim.RandomnessFromSignature prims
             (if v2from (self s) <=? Rnd r then SigV2 r else Sig r)).
Proof.
  rewrite verify_eq.
  assert (Hfin : forall ps,
    finalResult prims (self s) info r ps = Ok rd' ->
    rd' = set_Random r
            (chainprim.RandomnessFromSignature prims
               (if v2from (self s) <=? Rnd r then SigV2 r else Sig r))).
  { intros ps. unfold finalResult.
    destruct (v2from (self s) <=? Rnd r);
      match goal with
      | |- context [match ?o with Some _ => _ | None => _ end] =>
          destruct o
      end; intros H; inversion H; reflexivity. }
  destruct (walkNeeded (self s) r).
  - destruct (getTrustedPreviousSignature prims (Rnd r) s)
      as [[[ps | e] s1] t1]; intros H; [| discriminate].
    injection H as Hr _ _. exact (Hfin _ Hr).
  - intros H. injection H as Hr _ _. exact (Hfin _ Hr).
Qed.

(** C9, as the code has it. For a round at or after the v2 threshold
    [verify] builds the link from the v2 slot and calls the v2
    primitive and nothing else. The adapter returns a [RandomData]
    unchanged; of any other result it stores the signature into the v2
    slot with tag 2 when the round is at or after the threshold, and
    into the v1 slot, tag left at 0, when it is below. For a round below
    the threshold [verify] never calls the v2 primitive, and when the
    result does not carry tag 2 (as the results the adapter has
    converted) the link it verifies last is built from the v1 slot. *)
Theorem scheme_follows_threshold :
  (forall info r s,
     v2from (self s) <= Rnd r ->
     verify prims info r s =
     (finalResult prims (self s) info r (sliceOf (PreviousSignature r)), s,
      [EvVerifyBeaconV2
         {| chain.PreviousSig := sliceOf (PreviousSignature r);
            chain.Round := Rnd r;
            chain.Signature := [];
            chain.SignatureV2 := SigV2 r |}])) /\
  (forall (v : verifyingClient W) rd,
     asRandomData v (PtrRandomData rd) = rd) /\
  (forall (v : verifyingClient W) o,
     v2from v <= oRound o ->
     SigV2 (asRandomData v (OtherImpl o)) = oSignature o /\
     version (asRandomData v (OtherImpl o)) = 2 /\
     Sig (asRandomData v (OtherImpl o)) = []) /\
  (forall (v : verifyingClient W) o,
     oRound o < v2from v ->
     Sig (asRandomData v (OtherImpl o)) = oSignature o /\
     version (asRandomData v (OtherImpl o)) = 0 /\
     SigV2 (asRandomData v (OtherImpl o)) = []) /\
  (forall info r s res s' t,
     Rnd r < v2from (self s) ->
     verify prims info r s = (res, s', t) ->
     Forall notV2 t /\
     (version r <> 2 ->
      (exists e, res = Err e /\
         getTrustedPreviousSignature prims (Rnd r) s = (Err e, s', t)) \/
      (exists t0 ps,
         t = t0 ++ [EvVerifyBeacon (linkOf ps (Rnd r) (Sig r))]))).
Proof.
  split; [| split; [| split; [| split]]].
  - intros info r s Hge. rewrite verify_eq.
    unfold walkNeeded, RandomData_Round.
    replace (Rnd r <? v2from (self s)) with false
      by (symmetry; apply N.ltb_ge; exact Hge).
    cbn [andb]. unfold finalEvent, finalLink.
    apply N.leb_le in Hge. rewrite Hge. reflexivity.
  - reflexivity.
  - intros v o Hge. apply N.leb_le in Hge. cbn. rewrite Hge. auto.
  - intros v o Hlt. cbn.
    replace (v2from v <=? oRound o) with false
      by (symmetry; apply N.leb_gt; exact Hlt).
    auto.
  - intros info r s res s' t Hlt. rewrite verify_eq.
    assert (Hfe : forall ps,
              finalEvent (self s) r ps
              = EvVerifyBeacon
                  (linkOf ps (Rnd r) (RandomData_Signature r))).
    { intros ps. unfold finalEvent, finalLink.
      replace (v2from (self s) <=? Rnd r) with false
        by (symmetry; apply N.leb_gt; exact Hlt).
      reflexivity. }
    assert (Hsig : version r <> 2 -> RandomData_Signature r = Sig r).
    { intros Hv. unfold RandomData_Signature.
      apply N.eqb_neq in Hv. rewrite Hv. reflexivity. }
    destruct (walkNeeded (self s) r).
    + pose proof (walk_events (Rnd r) s) as Hev.
      destruct (getTrustedPreviousSignature prims (Rnd r) s)
        as [[[ps | e] s1] t1]; cbn [snd] in Hev;
        intros H; injection H as <- <- <-.
      * split.
        -- apply Forall_app. split.
           ++ eapply Forall_impl; [| exact Hev].
              intros e. apply walkOrInfoEvent_notV2.
           ++ rewrite Hfe. repeat constructor.
        -- intros Hv. right. exists t1, ps.
           rewrite Hfe, Hsig by exact Hv. reflexivity.
      * split.
        -- eapply Forall_impl; [| exact Hev].
           intros e0. apply walkOrInfoEvent_notV2.
        -- intros _. left. exists e. auto.
    + intros H; injection H as <- <- <-. split.
      * rewrite Hfe. repeat constructor.
      * intros Hv. right. exists [], (sliceOf (PreviousSignature r)).
        rewrite Hfe, Hsig by exact Hv. reflexivity.
Qed.


(** ** [Get] *)

Lemma Get_eq round s :
  Get prims round s =
  match cInfo (indirectClient (self s)) (world s) with
  | (Err e, w1) => (Err e, mkSt (self s) w1, [EvInfo])
  | (Ok info, w1) =>
      match cGet (vClient (self s)) w1 round with
      | (Err e, w2) =>
          (Err e, mkSt (self s) w2, [EvInfo; EvGet Direct round])
      | (Ok r, w2) =>
          match verify prims info (asRandomData (self s) r)
                  (mkSt (self s) w2) with
          | (Err e, s3, t3) =>
              (Err e, s3, EvInfo :: EvGet Direct round :: t3)
          | (Ok rd', s3, t3) =>
              (Ok (PtrRandomData rd'), s3,
               EvInfo :: EvGet Direct round :: t3)
          end
      end
  end.
Proof.
  unfold Get. unfold bind at 1, callInfo.
  destruct (cInfo (indirectClient (self s)) (world s)) as [[info | e] w1];
    [| reflexivity].
  unfold bind at 1, callGet, clientOf. cbn [self world].
  destruct (cGet (vClient (self s)) w1 round) as [[r | e] w2];
    [| reflexivity].
  unfold bind at 1, readSelf. cbn [self].
  unfold bind, ret.
  destruct (verify prims info (asRandomData (self s) r)
              (mkSt (self s) w2)) as [[[rd' | e] s3] t3];
    cbn; rewrite ?app_nil_r; reflexivity.
Qed.

(** X2. The result of a [Get] that succeeds is a [RandomData] whose
    randomness is derived from the signature of the slot of its round
    (the v2 slot at or after the threshold, the v1 slot below), whatever
    randomness the fetched result carried. *)
Theorem Get_randomness round s res s' t :
  Get prims round s = (Ok res, s', t) ->
  exists rd,
    res = PtrRandomData rd /\
    Randomness res =
    chainprim.RandomnessFromSignature prims
      (if v2from (self s) <=? Rnd rd then SigV2 rd else Sig rd).
Proof.
  rewrite Get_eq.
  destruct (cInfo (indirectClient (self s)) (world s)) as [[info | e] w1];
    [| discriminate].
  destruct (cGet (vClient (self s)) w1 round) as [[r | e] w2];
    [| discriminate].
  destruct (verify prims info (asRandomData (self s) r)
              (mkSt (self s) w2)) as [[[rd' | e] s3] t3] eqn:Hv;
    [| discriminate].
  intros H. injection H as <- <- <-.
  apply verify_randomness in Hv. cbn [self] in Hv.
  exists rd'. split; [reflexivity |]. rewrite Hv. reflexivity.
Qed.

(** ** [Watch] *)

Lemma watchLoop_passed info inCh :
  forall s,
    fst (fst (watchLoop prims info inCh s))
    = Ok (passed (verdicts prims info inCh s)).
Proof.
  induction inCh as [| r rest IH]; intros s; [reflexivity |].
  cbn [watchLoop verdicts]. unfold bind at 1, readSelf.
  unfold bind at 1, attempt.
  destruct (verify prims info (asRandomData (self s) r) s)
    as [[[rd' | e] s1] t1]; cbn [fst snd stateAfter passed flat_map].
  - specialize (IH s1). unfold bind, ret.
    destruct (watchLoop prims info rest s1) as [[out s2] t2].
    cbn [fst] in IH. rewrite IH. reflexivity.
  - specialize (IH s1).
    destruct (watchLoop prims info rest s1) as [[out s2] t2].
    cbn [fst] in *. exact IH.
Qed.

(** Every item of the input stream gets its verdict. *)
Lemma verdicts_inputs info inCh :
  forall s, map fst (verdicts prims info inCh s) = inCh.
Proof.
  induction inCh as [| r rest IH]; intros s; [reflexivity |].
  cbn [verdicts map fst]. rewrite IH. reflexivity.
Qed.

Lemma sent_sameItem info (v : verifyingClient W) r s rd' s' t :
  verify prims info (asRandomData v r) s = (Ok rd', s', t) ->
  sameItem (sent r rd') r.
Proof.
  intros H. apply verify_randomness in H.
  destruct r as [rd | o]; cbn in *; [| reflexivity].
  rewrite H. reflexivity.
Qed.

Lemma passed_sameItem info inCh :
  forall s,
    Forall2 sameItem (passed (verdicts prims info inCh s))
      (map fst (filter (fun x => isOk (snd x))
                  (verdicts prims info inCh s))).
Proof.
  induction inCh as [| r rest IH]; intros s; [constructor |].
  cbn [verdicts passed flat_map filter snd fst].
  destruct (verify prims info (asRandomData (self s) r) s)
    as [[[rd' | e] s1] t1] eqn:Hv; cbn [fst snd isOk map app stateAfter].
  - constructor; [eapply sent_sameItem; exact Hv | apply IH].
  - apply IH.
Qed.

(** C8. Once [Watch] has fetched the chain metadata and subscribed to
    the stream of the wrapped client, every item of that stream gets the
    verdict of [verify], and the output stream is, item for item and in
    the order of the input, the input items whose verdict is a success:
    an item that fails is left out and the items after it are still
    judged and sent; the output ends when the input does. *)
Theorem watch_forwards_verified s info w1 inCh w2 :
  cInfo (indirectClient (self s)) (world s) = (Ok info, w1) ->
  cWatch (vClient (self s)) w1 = (inCh, w2) ->
  map fst (verdicts prims info inCh (mkSt (self s) w2)) = inCh /\
  exists out,
    fst (fst (Watch prims s)) = Ok out /\
    Forall2 sameItem out
      (map fst (filter (fun x => isOk (snd x))
                  (verdicts prims info inCh (mkSt (self s) w2)))).
Proof.
  intros Hinfo Hwatch. split; [apply verdicts_inputs |].
  exists (passed (verdicts prims info inCh (mkSt (self s) w2))).
  split; [| apply passed_sameItem].
  unfold Watch, bind at 1, attempt, callInfo. rewrite Hinfo.
  unfold bind at 1, callWatch. cbn [self world]. rewrite Hwatch.
  pose proof (watchLoop_passed info inCh (mkSt (self s) w2)) as Hl.
  destruct (watchLoop prims info inCh (mkSt (self s) w2))
    as [[out s2] t2].
  exact Hl.
Qed.


(** ** The cache after a successful walk *)

(** After a walk for [round >= 2] has returned a signature, the cache
    holds a result of round [round-1] with that signature, unless the
    walk was for round 2 on the slow path, which leaves the receiver as
    it was. *)
Lemma walk_post round s ps s1 t1 :
  answersAskedRound (indirectClient (self s)) ->
  round <> 1 ->
  getTrustedPreviousSignature prims round s = (Ok ps, s1, t1) ->
  (exists n, pointOfTrust (self s1) = Some n /\
             Round n = dec64 round /\ Signature n = ps) \/
  (self s1 = self s /\ dec64 round = 1 /\
   slowPath (pointOfTrust (self s)) round = true).
Proof.
  intros Hh Hne H. pose proof (walk_walked round s) as Hw.
  rewrite H in Hw. inversion Hw; subst; clear Hw; [congruence |].
  match goal with
  | Ha : anchored _ _ _ _ _ _ |- _ =>
      destruct Ha as [pot Hpot Hslow | info2 w2 Hslow Hinfo2]
  end;
    match goal with
    | Hf : walkFrom _ _ _ _ _ = _ |- _ =>
        apply walkFrom_ok in Hf; cbn [self] in Hf;
        destruct Hf as [(Htr & -> & -> & _)
                       | (_ & n & Hs' & Hsig & Hrnd & _)]
    end; cbn [self].
  - left. exists pot. auto.
  - left. exists n. rewrite Hs'. cbn. auto.
  - right. auto.
  - left. exists n. rewrite Hs'. cbn. auto.
Qed.

Lemma verify_state info r s :
  snd (fst (verify prims info r s)) =
  if walkNeeded (self s) r
  then snd (fst (getTrustedPreviousSignature prims (Rnd r) s))
  else s.
Proof.
  rewrite verify_eq. destruct (walkNeeded (self s) r); [| reflexivity].
  destruct (getTrustedPreviousSignature prims (Rnd r) s)
    as [[[ps | e] s1] t1]; reflexivity.
Qed.

(** C1, as the code has it. After round [R] (at least 2, below the v2
    threshold) has been verified with a chain walk, by a client whose
    indirect client answers with the rounds it is asked for, a walk for
    [R+1] fetches the chain metadata, and fetches and verifies no round
    other than [R]: no round below [R] is fetched or verified again, but
    round [R] itself is, because the walk for [R] leaves round [R-1] in
    the cache. *)
Theorem next_walk_starts_at_verified_round info rd s rd' s1 t1 :
  answersAskedRound (indirectClient (self s)) ->
  v2from (self s) < two64 ->
  2 <= Rnd rd ->
  walkNeeded (self s) rd = true ->
  verify prims info rd s = (Ok rd', s1, t1) ->
  Forall (fun e => forall n, eventRound e = Some n -> n = Rnd rd)
    (snd (getTrustedPreviousSignature prims (Rnd rd + 1) s1)).
Proof.
  intros Hh Hv2 Htwo Hneed Hver.
  assert (Hbelow : Rnd rd < v2from (self s)).
  { unfold walkNeeded, RandomData_Round in Hneed.
    apply andb_prop in Hneed. apply N.ltb_lt. tauto. }
  pose proof (verify_state info rd s) as Hst.
  rewrite Hver, Hneed in Hst. cbn [fst snd] in Hst.
  rewrite verify_eq, Hneed in Hver.
  destruct (getTrustedPreviousSignature prims (Rnd rd) s)
    as [[[ps | e] s1'] tw] eqn:Hwalk; [| discriminate].
  cbn [fst snd] in Hst. subst s1'. clear Hver.
  assert (Hne : Rnd rd <> 1) by lia.
  pose proof (walk_post _ _ _ _ _ Hh Hne Hwalk) as Hpost.
  pose proof (walk_events (Rnd rd + 1) s1) as Hev.
  rewrite dec64_succ in Hev by lia.
  rewrite dec64_pred in Hpost by lia.
  assert (Hanchor :
            Rnd rd - 1 <= anchorRound (pointOfTrust (self s1))
                            (Rnd rd + 1)).
  { destruct Hpost as [(n & Hpot & Hrnd & _) | (Hself & Hone & Hslow)].
    - rewrite Hpot. cbn [anchorRound]. rewrite Hrnd.
      replace (Rnd rd + 1 <? Rnd rd - 1) with false
        by (symmetry; apply N.ltb_ge; lia).
      lia.
    - rewrite Hself. unfold anchorRound, slowPath in *.
      destruct (pointOfTrust (self s)) as [p |]; [| lia].
      apply N.ltb_lt in Hslow.
      destruct (Rnd rd + 1 <? Round p); lia. }
  eapply Forall_impl; [| exact Hev].
  intros e [-> | He] n Hn; [discriminate |].
  destruct e as [| [|] m | | b | b]; cbn in He, Hn; try tauto;
    injection Hn as <-; lia.
Qed.


(** ** Verifying the same round again *)

Lemma same_info (c : Client W) w w' info w1 :
  sameInfoAlways c ->
  cInfo c w = (Ok info, w1) ->
  exists w1', cInfo c w' = (Ok info, w1').
Proof.
  intros Hs H. specialize (Hs w w'). rewrite H in Hs. cbn in Hs.
  destruct (cInfo c w') as [ri w1']. cbn in Hs. subst ri.
  exists w1'. reflexivity.
Qed.

(** A walk for [round >= 1] that has returned a signature returns it
    again when it is called again, whatever has happened to the world,
    and then only fetches the chain metadata. *)
Lemma walk_again round s ps s1 t1 w :
  sameInfoAlways (indirectClient (self s)) ->
  answersAskedRound (indirectClient (self s)) ->
  1 <= round ->
  getTrustedPreviousSignature prims round s = (Ok ps, s1, t1) ->
  exists w' t2,
    getTrustedPreviousSignature prims round (mkSt (self s1) w)
    = (Ok ps, mkSt (self s1) w', t2) /\
    Forall (eq EvInfo) t2.
Proof.
  intros Hsame Hh Hone H.
  pose proof (walk_config _ _ _ _ _ H) as (_ & Hic & _ & _).
  pose proof (walk_walked round s) as Hw.
  rewrite H in Hw. inversion Hw; subst; clear Hw.
  - (* round 1 *)
    cbn [self] in *.
    match goal with
    | Hi : cInfo _ (world s) = _ |- _ =>
        destruct (same_info _ _ w _ _ Hsame Hi) as (w1' & Hi')
    end.
    exists w1', [EvInfo]. rewrite walk_eq. cbn [self world].
    rewrite Hi'. cbn. auto.
  - (* a walk from an anchor *)
    pose proof (dec64_below round Hone) as Hbelow.
    match goal with
    | Hi : cInfo _ (world s) = _ |- _ =>
        destruct (same_info _ _ w _ _ Hsame Hi) as (w1' & Hi')
    end.
    rewrite walk_eq. cbn [self world]. rewrite Hic, Hi'.
    replace (round =? 1) with false
      by (symmetry; apply N.eqb_neq; assumption).
    cbv zeta.
    match goal with
    | Ha : anchored _ _ _ _ _ _ |- _ =>
        destruct Ha as [pot Hpot Hslow | info2 w2 Hslow Hinfo2]
    end;
      match goal with
      | Hf : walkFrom _ _ _ _ _ = _ |- _ =>
          apply walkFrom_ok in Hf; cbn [self] in Hf;
          destruct Hf as [(Htr & -> & -> & _)
                         | (Hlt & n & Hs' & Hsig & Hrnd & _)]
      end; cbn [self] in *.
    + (* the cache was at round-1 *)
      rewrite Hpot in *. cbn [slowPath] in Hslow. rewrite Hslow.
      rewrite walkFrom_noloop by lia.
      rewrite Htr, N.eqb_refl. unfold prepend. cbn.
      exists w1', [EvInfo]. auto.
    + (* the cache was below round-1 and has been moved to it *)
      rewrite Hs'. cbn [pointOfTrust set_pointOfTrust].
      rewrite (Hrnd Hh).
      replace (round <? dec64 round) with false
        by (symmetry; apply N.ltb_ge; lia).
      rewrite walkFrom_noloop by lia.
      rewrite N.eqb_refl, Hsig. unfold prepend. cbn.
      exists w1', [EvInfo]. rewrite <- Hs'. auto.
    + (* slow path, round 2 *)
      assert (Hs2 : match pointOfTrust (self s) with
                    | None => true
                    | Some p => round <? Round p
                    end = true) by exact Hslow.
      destruct (same_info _ _ w1' _ _ Hsame Hinfo2) as (w2' & Hi2').
      assert (Hgoal :
        match cInfo (indirectClient (self s)) w1' with
        | (Err e, w3) =>
            (Err (CouldNotGetInfo e), mkSt (self s) w3, [EvInfo; EvInfo])
        | (Ok info3, w3) =>
            prepend [EvInfo; EvInfo]
              (walkFrom prims info round (1, chain.GroupHash info3)
                 (mkSt (self s) w3))
        end
        = (Ok (chain.GroupHash info2), mkSt (self s) w2',
           [EvInfo; EvInfo])).
      { rewrite Hi2'. rewrite walkFrom_noloop by lia.
        rewrite Htr, N.eqb_refl. reflexivity. }
      exists w2', [EvInfo; EvInfo]. split; [| repeat constructor].
      destruct (pointOfTrust (self s)) as [p |];
        [rewrite Hs2 |]; exact Hgoal.
    + (* slow path, and the cache has been moved to round-1 *)
      rewrite Hs'. cbn [pointOfTrust set_pointOfTrust].
      rewrite (Hrnd Hh).
      replace (round <? dec64 round) with false
        by (symmetry; apply N.ltb_ge; lia).
      rewrite walkFrom_noloop by lia.
      rewrite N.eqb_refl, Hsig. unfold prepend. cbn.
      exists w1', [EvInfo]. rewrite <- Hs'. auto.
Qed.


Lemma final_config (v v' : verifyingClient W) info r ps :
  v2from v' = v2from v ->
  finalResult prims v' info r ps = finalResult prims v info r ps /\
  finalEvent v' r ps = finalEvent v r ps.
Proof.
  intros H. unfold finalResult, finalEvent, finalLink. rewrite H. auto.
Qed.

Lemma walkNeeded_config (v v' : verifyingClient W) r :
  v2from v' = v2from v -> strict v' = strict v ->
  walkNeeded v' r = walkNeeded v r.
Proof. intros H1 H2. unfold walkNeeded. rewrite H1, H2. reflexivity. Qed.

Lemma finalEvent_round (v : verifyingClient W) r ps :
  isVerification (finalEvent v r ps) = true /\
  eventRound (finalEvent v r ps) = Some (Rnd r).
Proof.
  unfold finalEvent, finalLink. destruct (v2from v <=? Rnd r); auto.
Qed.

(** A verification that has succeeded succeeds again, with the same
    result, whatever has happened to the world; the second time it
    fetches the chain metadata if it walks, and verifies the link of
    the round itself. *)
Lemma verify_again info r s rd' s1 t1 w :
  sameInfoAlways (indirectClient (self s)) ->
  answersAskedRound (indirectClient (self s)) ->
  1 <= Rnd r ->
  verify prims info r s = (Ok rd', s1, t1) ->
  exists w' ti ps,
    verify prims info r (mkSt (self s1) w)
    = (Ok rd', mkSt (self s1) w', ti ++ [finalEvent (self s) r ps]) /\
    Forall (eq EvInfo) ti.
Proof.
  intros Hsame Hh Hone Hver.
  pose proof (verify_state info r s) as Hst.
  rewrite Hver in Hst. cbn [fst snd] in Hst.
  rewrite verify_eq in Hver. rewrite verify_eq. cbn [self].
  destruct (walkNeeded (self s) r) eqn:Hneed.
  - destruct (getTrustedPreviousSignature prims (Rnd r) s)
      as [[[ps | e] s1'] tw] eqn:Hwalk; [| discriminate].
    cbn [fst snd] in Hst. subst s1'.
    injection Hver as Hres _.
    pose proof (walk_config _ _ _ _ _ Hwalk) as (_ & _ & Hstrict & Hv2).
    rewrite (walkNeeded_config _ _ r Hv2 Hstrict), Hneed.
    destruct (walk_again _ _ _ _ _ w Hsame Hh Hone Hwalk)
      as (w' & t2 & Hwalk2 & Hinfo2).
    rewrite Hwalk2.
    destruct (final_config _ _ info r ps Hv2) as (-> & ->).
    exists w', t2, ps. rewrite Hres. auto.
  - subst s1. rewrite Hneed.
    injection Hver as Hres _.
    exists w, [], (sliceOf (PreviousSignature r)). rewrite Hres. auto.
Qed.

(** C3, as the code has it. The client keeps no verified results: a
    second [Get] for the same round fetches the chain metadata and the
    round and verifies the round again. When the first [Get] has
    succeeded with a result of round at least 1, and the wrapped clients
    answer the same request the same way and with the round they are
    asked for, the second [Get] returns the same result, randomness
    included, and its calls are fetches of the chain metadata, one
    fetch of the round from the wrapped client and one verification,
    that of the round itself: it walks over no round again, because the
    cache already is at the round before. *)
Theorem second_get_repeats_no_walk round s res s1 t1 :
  sameInfoAlways (indirectClient (self s)) ->
  sameRoundAlways (vClient (self s)) ->
  answersAskedRound (indirectClient (self s)) ->
  Get prims round s = (Ok res, s1, t1) ->
  1 <= Round res ->
  exists s2 ti ev,
    Get prims round s1
    = (Ok res, s2, EvInfo :: EvGet Direct round :: ti ++ [ev]) /\
    Forall (eq EvInfo) ti /\
    isVerification ev = true /\
    eventRound ev = Some (Round res).
Proof.
  intros Hsame Hsr Hh Hget Hone.
  rewrite Get_eq in Hget.
  destruct (cInfo (indirectClient (self s)) (world s))
    as [[info | e] w1] eqn:Hinfo; [| discriminate].
  destruct (cGet (vClient (self s)) w1 round)
    as [[r | e] w2] eqn:Hfetch; [| discriminate].
  destruct (verify prims info (asRandomData (self s) r)
              (mkSt (self s) w2)) as [[[rd' | e] s3] t3] eqn:Hver;
    [| discriminate].
  injection Hget as <- <- <-.
  pose proof (verify_randomness _ _ _ _ _ _ Hver) as Hrd.
  assert (Hrnd : Rnd (asRandomData (self s) r) = Rnd rd')
    by (rewrite Hrd; reflexivity).
  assert (Hcfg : vClient (self s3) = vClient (self s) /\
                 indirectClient (self s3) = indirectClient (self s) /\
                 v2from (self s3) = v2from (self s)).
  { pose proof (verify_state info (asRandomData (self s) r)
                  (mkSt (self s) w2)) as Hst.
    rewrite Hver in Hst. cbn [fst snd self] in Hst.
    destruct (walkNeeded (self s) (asRandomData (self s) r)).
    - destruct (getTrustedPreviousSignature prims
                  (Rnd (asRandomData (self s) r)) (mkSt (self s) w2))
        as [[rw sw] tw] eqn:Hwalk.
      apply walk_config in Hwalk. cbn [fst snd self] in *. subst s3.
      tauto.
    - subst s3. auto. }
  destruct Hcfg as (Hvc & Hic & Hv2).
  destruct (same_info _ _ (world s3) _ _ Hsame Hinfo) as (w1' & Hinfo').
  pose proof (Hsr w1 w1' round) as Hfetch'. rewrite Hfetch in Hfetch'.
  destruct (cGet (vClient (self s)) w1' round) as [rr w2'] eqn:Hfetch2.
  cbn [fst] in Hfetch'. subst rr.
  destruct (verify_again info (asRandomData (self s) r)
              (mkSt (self s) w2) rd' s3 t3 w2' Hsame Hh)
    as (w' & ti & ps & Hver2 & Hti);
    [rewrite Hrnd; exact Hone | exact Hver |].
  cbn [self] in Hver2.
  exists (mkSt (self s3) w'), ti,
    (finalEvent (self s) (asRandomData (self s) r) ps).
  rewrite Get_eq, Hic, Hvc, Hinfo', Hfetch2.
  assert (Has : asRandomData (self s3) r = asRandomData (self s) r).
  { destruct r as [rd | o]; cbn; [reflexivity |]. rewrite Hv2.
    reflexivity. }
  rewrite Has, Hver2.
  destruct (finalEvent_round (self s) (asRandomData (self s) r) ps)
    as (Hisv & Hevr).
  rewrite Hrnd in Hevr.
  repeat split; assumption.
Qed.


(** ** What the operations keep of the receiver *)

Section Kept.

(** A property of the receiver that the walk keeps. *)
Variable P : verifyingClient W -> Prop.
Hypothesis walk_keeps :
  forall round s,
    P (self s) ->
    P (self (stateAfter (getTrustedPreviousSignature prims round s))).

Lemma verify_keeps info r s :
  P (self s) -> P (self (stateAfter (verify prims info r s))).
Proof.
  intros HP. unfold stateAfter in *. rewrite verify_state.
  destruct (walkNeeded (self s) r); [apply walk_keeps |]; exact HP.
Qed.

Lemma Get_keeps round s :
  P (self s) -> P (self (stateAfter (Get prims round s))).
Proof.
  intros HP. rewrite Get_eq.
  destruct (cInfo (indirectClient (self s)) (world s))
    as [[info | e] w1]; [| exact HP].
  destruct (cGet (vClient (self s)) w1 round) as [[r | e] w2];
    [| exact HP].
  pose proof (verify_keeps info (asRandomData (self s) r)
                (mkSt (self s) w2) HP) as HP'.
  destruct (verify prims info (asRandomData (self s) r)
              (mkSt (self s) w2)) as [[[rd' | e] s3] t3]; exact HP'.
Qed.

Lemma watchLoop_keeps info inCh :
  forall s,
    P (self s) -> P (self (stateAfter (watchLoop prims info inCh s))).
Proof.
  induction inCh as [| r rest IH]; intros s HP; [exact HP |].
  cbn [watchLoop]. unfold bind at 1, readSelf.
  unfold bind at 1, attempt.
  pose proof (verify_keeps info (asRandomData (self s) r) s HP) as HP'.
  destruct (verify prims info (asRandomData (self s) r) s)
    as [[[rd' | e] s1] t1]; unfold stateAfter in HP'; cbn in HP';
    specialize (IH s1 HP').
  - unfold bind, ret.
    destruct (watchLoop prims info rest s1) as [[[out | e] s2] t2];
      exact IH.
  - destruct (watchLoop prims info rest s1) as [[out s2] t2]; exact IH.
Qed.

Lemma Watch_keeps s :
  P (self s) -> P (self (stateAfter (Watch prims s))).
Proof.
  intros HP. unfold Watch, bind at 1, attempt, callInfo.
  destruct (cInfo (indirectClient (self s)) (world s))
    as [[info | e] w1]; [| exact HP].
  unfold bind at 1, callWatch. cbn [self world].
  destruct (cWatch (vClient (self s)) w1) as [inCh w2].
  pose proof (watchLoop_keeps info inCh (mkSt (self s) w2) HP) as HP'.
  destruct (watchLoop prims info inCh (mkSt (self s) w2))
    as [[out s2] t2]; exact HP'.
Qed.

Lemma runOp_keeps op s :
  P (self s) -> P (self (runOp prims op s)).
Proof.
  destruct op; cbn [runOp];
    auto using Get_keeps, Watch_keeps, walk_keeps.
Qed.

End Kept.

(** ** The invariant of the cache *)

Lemma walk_keeps_cacheInv c ci seed :
  answersAskedRound c ->
  servesInfo c ci ->
  forall round s,
    cacheInv prims c ci seed (self s) ->
    cacheInv prims c ci seed
      (self (stateAfter (getTrustedPreviousSignature prims round s))).
Proof.
  intros Hh Hci round s [Hic Hinv].
  destruct (getTrustedPreviousSignature prims round s)
    as [[r s'] t] eqn:H.
  unfold stateAfter. cbn [fst snd].
  pose proof (walk_config _ _ _ _ _ H) as (_ & Hic' & _ & _).
  split; [congruence |].
  pose proof (walk_walked round s) as Hw. rewrite H in Hw.
  inversion Hw; subst; clear Hw; cbn [self]; try exact Hinv.
  match goal with
  | Hi : cInfo _ (world s) = (Ok ?i, _) |- _ =>
      pose proof (Hci _ _ _ Hi); subst i
  end.
  match goal with
  | Ha : anchored _ _ _ _ _ _ |- _ =>
      destruct Ha as [pot Hpot Hslow | info2 w2 Hslow Hinfo2]
  end;
    (destruct r as [ps | e];
     [ match goal with
       | Hf : walkFrom _ _ _ _ _ = _ |- _ =>
           apply walkFrom_ok in Hf; cbn [self] in Hf;
           destruct Hf as [(_ & _ & -> & _)
                          | (_ & n & Hs' & Hsig & Hrnd & Hlink)]
       end
     | match goal with
       | Hf : walkFrom _ _ _ _ _ = _ |- _ =>
           apply walkFrom_err_self in Hf; cbn [self] in Hf;
           rewrite Hf; exact Hinv
       end ]); try exact Hinv;
    rewrite Hs'; cbn [pointOfTrust set_pointOfTrust];
    intros r Hr; injection Hr as <-;
    rewrite <- (Hrnd Hh) in Hlink; rewrite <- Hsig in Hlink.
  - destruct (Hinv _ Hpot) as [Hg | (r0 & Hseed & Hl)].
    + left. apply Hlink. exact Hg.
    + right. exists r0. split; [exact Hseed |]. apply Hlink. exact Hl.
  - left. apply Hlink.
    pose proof (Hci _ _ _ Hinfo2). subst info2. apply linked_here.
Qed.

(** The signature the loop returns is chained to whatever the signature
    it started from is chained to. *)
Lemma walkLoop_chained fuel info round :
  forall tr ps next s r s' t,
    walkLoop prims fuel info round tr ps next s = (r, s', t) ->
    forall tr' ps' next', r = Ok (tr', ps', next') ->
    forall a, chained prims (chain.PublicKey info) a ps ->
              chained prims (chain.PublicKey info) a ps'.
Proof.
  loop_induction fuel info round; intros tr' ps' next' E a Ha;
    try discriminate; try (injection E as <- <- <-; exact Ha).
  match goal with
  | Hr : walkLoop _ fuel _ _ _ _ _ _ = _ |- _ =>
      apply (IH _ _ _ _ _ _ _ Hr _ _ _ E)
  end.
  eapply chained_next; eassumption.
Qed.

Lemma walkFrom_chained info round tr0 ps0 s ps s' t :
  walkFrom prims info round (tr0, ps0) s = (Ok ps, s', t) ->
  forall a, chained prims (chain.PublicKey info) a ps0 ->
            chained prims (chain.PublicKey info) a ps.
Proof.
  rewrite walkFrom_eq. cbn [fst snd].
  destruct (walkLoop prims (walkFuel round tr0) info round tr0 ps0 None s)
    as [[lr s1] t1] eqn:Hloop.
  destruct lr as [[[tr ps1] next] | e]; [| discriminate].
  destruct (tr =? dec64 round); [| discriminate].
  intros H. injection H as <- _ _.
  exact (walkLoop_chained _ _ _ _ _ _ _ _ _ _ Hloop _ _ _ eq_refl).
Qed.

Lemma walk_keeps_cacheChained c ci seed :
  servesInfo c ci ->
  forall round s,
    cacheChained prims c ci seed (self s) ->
    cacheChained prims c ci seed
      (self (stateAfter (getTrustedPreviousSignature prims round s))).
Proof.
  intros Hci round s [Hic Hinv].
  destruct (getTrustedPreviousSignature prims round s)
    as [[r s'] t] eqn:H.
  unfold stateAfter. cbn [fst snd].
  pose proof (walk_config _ _ _ _ _ H) as (_ & Hic' & _ & _).
  split; [congruence |].
  pose proof (walk_walked round s) as Hw. rewrite H in Hw.
  inversion Hw; subst; clear Hw; cbn [self]; try exact Hinv.
  match goal with
  | Hi : cInfo _ (world s) = (Ok ?i, _) |- _ =>
      pose proof (Hci _ _ _ Hi); subst i
  end.
  match goal with
  | Ha : anchored _ _ _ _ _ _ |- _ =>
      destruct Ha as [pot Hpot Hslow | info2 w2 Hslow Hinfo2]
  end;
    (destruct r as [ps | e];
     [ match goal with
       | Hf : walkFrom _ _ _ _ _ = _ |- _ =>
           pose proof (walkFrom_chained _ _ _ _ _ _ _ _ Hf) as Hch;
           apply walkFrom_ok in Hf; cbn [self] in Hf;
           destruct Hf as [(_ & _ & -> & _)
                          | (_ & n & Hs' & Hsig & _ & _)]
       end
     | match goal with
       | Hf : walkFrom _ _ _ _ _ = _ |- _ =>
           apply walkFrom_err_self in Hf; cbn [self] in Hf;
           rewrite Hf; exact Hinv
       end ]); try exact Hinv;
    rewrite Hs'; cbn [pointOfTrust set_pointOfTrust];
    intros r Hr; injection Hr as <-; unfold chainedToAnchor; rewrite Hsig.
  - destruct (Hinv _ Hpot) as [Hg | (r0 & Hseed & Hl)].
    + left. apply Hch. exact Hg.
    + right. exists r0. split; [exact Hseed |]. apply Hch. exact Hl.
  - left. apply Hch.
    pose proof (Hci _ _ _ Hinfo2). subst info2. apply chained_here.
Qed.

(** C4, as the code has it. The client trusts the result it is
    constructed with. In every state a client can reach, with a wrapped
    client that serves the chain metadata [ci], the signature of the
    cached result is chained, by links that the v1 primitive has
    accepted, to the genesis identifier of [ci] or to the signature of
    the result given at construction. When the wrapped client moreover
    answers with the rounds it is asked for, the links are those of the
    consecutive rounds from the anchor (round 1 for the genesis
    identifier) to the round of the cached result. *)
Theorem cache_verified_to_anchor c seed strict v2from ci s :
  servesInfo c ci ->
  reachable prims c seed strict v2from s ->
  forall r,
    pointOfTrust (self s) = Some r ->
    chainedToAnchor prims ci seed r /\
    (answersAskedRound c -> verifiedToAnchor prims ci seed r).
Proof.
  intros Hci Hreach r Hr. split.
  - assert (Hinv : cacheChained prims c ci seed (self s)).
    { clear r Hr. induction Hreach as [w | s op _ IH | s w _ IH].
      - split; [reflexivity |]. cbn. intros r ->.
        right. exists r. split; [reflexivity | apply chained_here].
      - apply runOp_keeps; [| exact IH].
        apply walk_keeps_cacheChained; assumption.
      - exact IH. }
    exact (proj2 Hinv r Hr).
  - intros Hh.
    assert (Hinv : cacheInv prims c ci seed (self s)).
    { clear r Hr. induction Hreach as [w | s op _ IH | s w _ IH].
      - split; [reflexivity |]. cbn. intros r ->.
        right. exists r. split; [reflexivity | apply linked_here].
      - apply runOp_keeps; [| exact IH].
        apply walk_keeps_cacheInv; assumption.
      - exact IH. }
    exact (proj2 Hinv r Hr).
Qed.

(** ** Two more properties of the walk *)

(** X1. The walk for round 1 returns the genesis identifier of the chain
    metadata it fetches, and does nothing else. *)
Theorem walk_round_one s info w1 :
  cInfo (indirectClient (self s)) (world s) = (Ok info, w1) ->
  getTrustedPreviousSignature prims 1 s
  = (Ok (chain.GroupHash info), mkSt (self s) w1, [EvInfo]).
Proof. intros H. rewrite walk_eq, H. reflexivity. Qed.

(** X3. A walk that finds the cache empty starts from round 1 with the
    genesis identifier as the signature of that round: the rounds it
    fetches and verifies are the rounds from 2 to [round-1], and round 1
    is never fetched. *)
Theorem cold_walk_starts_after_round_one round s :
  pointOfTrust (self s) = None ->
  Forall (walkOrInfoEvent 1 (dec64 round))
    (snd (getTrustedPreviousSignature prims round s)).
Proof.
  intros H. pose proof (walk_events round s) as Hev.
  rewrite H in Hev. exact Hev.
Qed.

(** ** The adapter and the results the client hands out *)

(** X4. Seen through the [Result] interface, the [RandomData] the adapter
    makes of a result has the round, the signature and the randomness of
    that result, whatever the threshold: the slot and the tag the adapter
    chooses are the ones [RandomData.Signature] reads back. *)
Theorem asRandomData_keeps_interface (v : verifyingClient W) r :
  Round (PtrRandomData (asRandomData v r)) = Round r /\
  Signature (PtrRandomData (asRandomData v r)) = Signature r /\
  Randomness (PtrRandomData (asRandomData v r)) = Randomness r.
Proof.
  destruct r as [rd | o]; [auto |].
  cbn. unfold RandomData_Signature. cbn.
  destruct (v2from v <=? oRound o); auto.
Qed.

Lemma finalResult_accepted (v : verifyingClient W) info r ps rd' :
  finalResult prims v info r ps = Ok rd' ->
  if v2from v <=? Rnd r
  then chainprim.VerifyBeaconV2 prims (chain.PublicKey info)
         (finalLink v r ps) = None
  else chainprim.VerifyBeacon prims (chain.PublicKey info)
         (finalLink v r ps) = None.
Proof.
  unfold finalResult. destruct (v2from v <=? Rnd r);
    match goal with
    | |- context [match ?o with Some _ => _ | None => _ end] =>
        destruct o
    end; intros H; [discriminate | reflexivity | discriminate | reflexivity].
Qed.

(** A verification that succeeds has called the primitive on a link
    whose previous signature is the one the walk returned, or the hint. *)
Lemma verify_ok_link info r s rd' s' t :
  verify prims info r s = (Ok rd', s', t) ->
  exists ps,
    finalResult prims (self s) info r ps = Ok rd' /\
    ((walkNeeded (self s) r = true /\
      exists tw,
        getTrustedPreviousSignature prims (Rnd r) s = (Ok ps, s', tw)) \/
     (walkNeeded (self s) r = false /\
      ps = sliceOf (PreviousSignature r) /\ s' = s)).
Proof.
  rewrite verify_eq. destruct (walkNeeded (self s) r).
  - destruct (getTrustedPreviousSignature prims (Rnd r) s)
      as [[[ps | e] s1] t1]; intros H; [| discriminate].
    injection H as Hres <- _. exists ps. split; [exact Hres |].
    left. split; [reflexivity |]. exists t1. reflexivity.
  - intros H. injection H as Hres <- _.
    exists (sliceOf (PreviousSignature r)). auto.
Qed.

Lemma acceptedBy_verified (v : verifyingClient W) info r ps rd' x :
  finalResult prims v info r ps = Ok rd' ->
  acceptedBy prims v (chain.PublicKey info)
    (PtrRandomData (set_Random r x)).
Proof.
  intros H. apply finalResult_accepted in H. exists ps. exact H.
Qed.

Lemma acceptedBy_config (v v' : verifyingClient W) pk r :
  v2from v' = v2from v ->
  acceptedBy prims v' pk r -> acceptedBy prims v pk r.
Proof.
  intros Hv [ps H]. exists ps.
  assert (Has : asRandomData v' r = asRandomData v r).
  { destruct r as [rd | o]; cbn; [reflexivity |]. rewrite Hv.
    reflexivity. }
  unfold finalLink in *. rewrite Has, Hv in H. exact H.
Qed.


(** X6. A [Get] that succeeds has fetched the chain metadata, and the
    primitive of the scheme of the result's round has accepted, under
    the public key of these metadata, a link made of the result's round
    and signature slot: [Get] returns no result whose link the primitive
    has refused. *)
Theorem Get_accepted round s res s' t :
  Get prims round s = (Ok res, s', t) ->
  exists info w1,
    cInfo (indirectClient (self s)) (world s) = (Ok info, w1) /\
    acceptedBy prims (self s) (chain.PublicKey info) res.
Proof.
  rewrite Get_eq.
  destruct (cInfo (indirectClient (self s)) (world s))
    as [[info | e] w1] eqn:Hinfo; [| discriminate].
  destruct (cGet (vClient (self s)) w1 round) as [[r | e] w2];
    [| discriminate].
  destruct (verify prims info (asRandomData (self s) r)
              (mkSt (self s) w2)) as [[[rd' | e] s3] t3] eqn:Hv;
    [| discriminate].
  intros H. injection H as <- _ _.
  exists info, w1. split; [first [exact Hinfo | reflexivity] |].
  pose proof (verify_randomness _ _ _ _ _ _ Hv) as Hrd.
  destruct (verify_ok_link _ _ _ _ _ _ Hv) as (ps & Hfin & _).
  rewrite Hrd. eapply acceptedBy_verified. exact Hfin.
Qed.

Lemma verify_v2from info r s :
  v2from (self (stateAfter (verify prims info r s))) = v2from (self s).
Proof.
  unfold stateAfter. rewrite verify_state.
  destruct (walkNeeded (self s) r); [| reflexivity].
  destruct (getTrustedPreviousSignature prims (Rnd r) s)
    as [[rw sw] tw] eqn:Hw.
  apply walk_config in Hw. cbn. tauto.
Qed.

Lemma acceptedBy_sent (v : verifyingClient W) info r ps rd' x :
  finalResult prims v info (asRandomData v r) ps = Ok rd' ->
  rd' = set_Random (asRandomData v r) x ->
  acceptedBy prims v (chain.PublicKey info) (sent r rd').
Proof.
  intros Hfin Hrd. apply finalResult_accepted in Hfin.
  destruct r as [rd | o]; cbn [sent].
  - rewrite Hrd. exists ps. exact Hfin.
  - exists ps. exact Hfin.
Qed.

Lemma passed_accepted info inCh :
  forall s,
    Forall (acceptedBy prims (self s) (chain.PublicKey info))
      (passed (verdicts prims info inCh s)).
Proof.
  induction inCh as [| r rest IH]; intros s; [constructor |].
  cbn [verdicts passed flat_map fst snd].
  pose proof (verify_v2from info (asRandomData (self s) r) s) as Hv2.
  destruct (verify prims info (asRandomData (self s) r) s)
    as [[[rd' | e] s1] t1] eqn:Hv; cbn [fst snd stateAfter] in *.
  - cbn [app]. constructor.
    + pose proof (verify_randomness _ _ _ _ _ _ Hv) as Hrd.
      destruct (verify_ok_link _ _ _ _ _ _ Hv) as (ps & Hfin & _).
      eapply acceptedBy_sent; eassumption.
    + eapply Forall_impl; [| apply (IH s1)].
      intros a. apply acceptedBy_config. exact Hv2.
  - cbn [app]. eapply Forall_impl; [| apply (IH s1)].
    intros a. apply acceptedBy_config. exact Hv2.
Qed.

(** X7. Every item [Watch] sends on its output stream has a link, made
    of its round and signature slot, that the primitive of the scheme of
    its round has accepted under the public key of the chain metadata
    [Watch] fetched when it started. *)
Theorem Watch_accepted s info w1 out :
  cInfo (indirectClient (self s)) (world s) = (Ok info, w1) ->
  fst (fst (Watch prims s)) = Ok out ->
  Forall (acceptedBy prims (self s) (chain.PublicKey info)) out.
Proof.
  intros Hinfo. unfold Watch, bind at 1, attempt, callInfo. rewrite Hinfo.
  unfold bind at 1, callWatch. cbn [self world].
  destruct (cWatch (vClient (self s)) w1) as [inCh w2].
  pose proof (watchLoop_passed info inCh (mkSt (self s) w2)) as Hl.
  pose proof (passed_accepted info inCh (mkSt (self s) w2)) as Hacc.
  destruct (watchLoop prims info inCh (mkSt (self s) w2))
    as [[o s2] t2].
  cbn [fst] in *. rewrite Hl. intros H. injection H as <-. exact Hacc.
Qed.

(** ** The chain behind a verified round *)

(** The signature a walk returns is linked, round after round, to the
    anchor the walk started from: the genesis identifier as round 1, or
    the cached result. *)
Lemma walk_linked ci round s ps s' t :
  servesInfo (indirectClient (self s)) ci ->
  round <> 1 ->
  getTrustedPreviousSignature prims round s = (Ok ps, s', t) ->
  linked prims (chain.PublicKey ci) (1, chain.GroupHash ci)
    (dec64 round, ps) \/
  exists p,
    pointOfTrust (self s) = Some p /\
    linked prims (chain.PublicKey ci) (Round p, Signature p)
      (dec64 round, ps).
Proof.
  intros Hci Hne H. pose proof (walk_walked round s) as Hw.
  rewrite H in Hw. inversion Hw; subst; clear Hw; [congruence |].
  match goal with
  | Hi : cInfo _ (world s) = (Ok ?i, _) |- _ =>
      pose proof (Hci _ _ _ Hi); subst i
  end.
  match goal with
  | Ha : anchored _ _ _ _ _ _ |- _ =>
      destruct Ha as [pot Hpot Hslow | info2 w2 Hslow Hinfo2]
  end;
    match goal with
    | Hf : walkFrom _ _ _ _ _ = _ |- _ =>
        apply walkFrom_ok in Hf;
        destruct Hf as [(Htr & -> & _ & _)
                       | (_ & n & _ & _ & _ & Hlink)]
    end.
  - right. exists pot. split; [exact Hpot |]. rewrite Htr.
    apply linked_here.
  - right. exists pot. split; [exact Hpot |]. apply Hlink.
    apply linked_here.
  - left. pose proof (Hci _ _ _ Hinfo2). subst info2.
    rewrite <- Htr. apply linked_here.
  - left. pose proof (Hci _ _ _ Hinfo2). subst info2.
    apply Hlink. apply linked_here.
Qed.

(** X8. What a strict client guarantees: when [Get] succeeds with a
    result of round [R], at least 2 and below the v2 threshold, and the
    indirect client serves the chain metadata [ci], then links of
    consecutive rounds, each accepted by the v1 primitive under the key
    of [ci], lead to round [R] and its signature from the genesis
    identifier of [ci] (as round 1) or from the result that was in the
    cache when [Get] was called. *)
Theorem strict_Get_linked ci round s res s' t :
  servesInfo (indirectClient (self s)) ci ->
  strict (self s) = true ->
  Get prims round s = (Ok res, s', t) ->
  2 <= Round res ->
  Round res < v2from (self s) ->
  Round res < two64 ->
  linked prims (chain.PublicKey ci) (1, chain.GroupHash ci)
    (Round res, Signature res) \/
  exists p,
    pointOfTrust (self s) = Some p /\
    linked prims (chain.PublicKey ci) (Round p, Signature p)
      (Round res, Signature res).
Proof.
  intros Hci Hstrict Hget Htwo Hbelow Hrange.
  rewrite Get_eq in Hget.
  destruct (cInfo (indirectClient (self s)) (world s))
    as [[info | e] w1] eqn:Hinfo; [| discriminate].
  pose proof (Hci _ _ _ Hinfo). subst info.
  destruct (cGet (vClient (self s)) w1 round) as [[r | e] w2];
    [| discriminate].
  destruct (verify prims ci (asRandomData (self s) r)
              (mkSt (self s) w2)) as [[[rd' | e] s3] t3] eqn:Hv;
    [| discriminate].
  injection Hget as <- _ _.
  pose proof (verify_randomness _ _ _ _ _ _ Hv) as Hrd.
  set (rd := asRandomData (self s) r) in *.
  assert (Hr : Round (PtrRandomData rd') = Rnd rd)
    by (rewrite Hrd; reflexivity).
  assert (Hs : Signature (PtrRandomData rd') = RandomData_Signature rd)
    by (rewrite Hrd; reflexivity).
  rewrite Hr in *. rewrite Hs. clear Hrd Hr Hs.
  destruct (verify_ok_link _ _ _ _ _ _ Hv) as (ps & Hfin & Hcase).
  cbn [self] in *.
  assert (Hneed : walkNeeded (self s) rd = true).
  { unfold walkNeeded, RandomData_Round. rewrite Hstrict.
    apply N.ltb_lt in Hbelow. rewrite Hbelow. reflexivity. }
  destruct Hcase as [(_ & tw & Hwalk) | (Hno & _)]; [| congruence].
  apply finalResult_accepted in Hfin.
  replace (v2from (self s) <=? Rnd rd) with false in Hfin
    by (symmetry; apply N.leb_gt; exact Hbelow).
  unfold finalLink in Hfin.
  replace (v2from (self s) <=? Rnd rd) with false in Hfin
    by (symmetry; apply N.leb_gt; exact Hbelow).
  assert (Hstep : forall a,
            linked prims (chain.PublicKey ci) a (dec64 (Rnd rd), ps) ->
            linked prims (chain.PublicKey ci) a
              (Rnd rd, RandomData_Signature rd)).
  { intros a Ha. rewrite dec64_pred in Ha by lia.
    replace (Rnd rd) with (Rnd rd - 1 + 1) at 1 by lia.
    eapply linked_next; [exact Ha |].
    replace (Rnd rd - 1 + 1) with (Rnd rd) by lia. exact Hfin. }
  assert (Hne : Rnd rd <> 1) by lia.
  destruct (walk_linked ci _ (mkSt (self s) w2) _ _ _ Hci Hne Hwalk)
    as [Hg | (p & Hp & Hl)].
  - left. apply Hstep. exact Hg.
  - right. exists p. split; [exact Hp |]. apply Hstep. exact Hl.
Qed.

(** ** The errors of the walk *)

(** An error of the loop is the error of the fetch or of the
    verification the loop has just made: the loop stops there. *)
Lemma walkLoop_err fuel info round :
  forall tr ps next s r s' t,
    walkLoop prims fuel info round tr ps next s = (r, s', t) ->
    forall e, r = Err e ->
    (exists k c t0,
        e = CouldNotGetRound k c /\ t = t0 ++ [EvGet Indirect k]) \/
    (exists c b t0,
        e = VerifyingBeacon c /\ t = t0 ++ [EvVerifyBeacon b] /\
        chainprim.VerifyBeacon prims (chain.PublicKey info) b = Some c).
Proof.
  loop_induction fuel info round; intros e0 E; try discriminate.
  - injection E as <-. left. eexists. eexists. exists [].
    split; reflexivity.
  - injection E as <-. right. eexists. eexists.
    exists [EvGet Indirect (inc64 tr)].
    split; [reflexivity |]. split; [reflexivity | assumption].
  - match goal with
    | Hr : walkLoop _ fuel _ _ _ _ _ _ = _ |- _ =>
        destruct (IH _ _ _ _ _ _ _ Hr _ E)
          as [(k & c & pre & -> & ->) | (c & b & pre & -> & -> & Hb)]
    end.
    + left. exists k, c.
      eexists (EvGet Indirect (inc64 tr) :: EvVerifyBeacon _ :: pre).
      split; reflexivity.
    + right. exists c, b.
      eexists (EvGet Indirect (inc64 tr) :: EvVerifyBeacon _ :: pre).
      split; [reflexivity |]. split; [reflexivity | exact Hb].
Qed.

Lemma walkFuel_enough round tr :
  dec64 round - tr <= N.of_nat (walkFuel round tr).
Proof. unfold walkFuel. rewrite N2Nat.id. apply N.le_refl. Qed.

Lemma walkFrom_err info round tr0 ps0 s e s' t :
  walkFrom prims info round (tr0, ps0) s = (Err e, s', t) ->
  (exists k c t0,
      e = CouldNotGetRound k c /\ t = t0 ++ [EvGet Indirect k]) \/
  (exists c b t0,
      e = VerifyingBeacon c /\ t = t0 ++ [EvVerifyBeacon b] /\
      chainprim.VerifyBeacon prims (chain.PublicKey info) b = Some c) \/
  (e = UnexpectedTrustRound tr0 /\ dec64 round < tr0 /\
   s' = s /\ t = []).
Proof.
  destruct (N.le_gt_cases (dec64 round) tr0) as [Hle | Hlt].
  - rewrite walkFrom_noloop by exact Hle.
    destruct (tr0 =? dec64 round) eqn:Heq; intros H; [discriminate |].
    injection H as <- <- <-. apply N.eqb_neq in Heq.
    right. right. repeat split. lia.
  - rewrite walkFrom_eq. cbn [fst snd].
    destruct (walkLoop prims (walkFuel round tr0) info round tr0 ps0 None s)
      as [[lr s1] t1] eqn:Hloop.
    destruct lr as [[[tr ps1] next] | e1].
    + pose proof (walkLoop_exit _ _ _ _ _ _ _ _ _ _
                    (walkFuel_enough round tr0) Hloop _ _ _ eq_refl)
        as Hexit.
      destruct (walkLoop_ok _ _ _ _ _ _ _ _ _ _ Hloop _ _ _ eq_refl)
        as (_ & Hup & _).
      apply N.ltb_ge in Hexit.
      replace (tr =? dec64 round) with true
        by (symmetry; apply N.eqb_eq; lia).
      discriminate.
    + intros H. injection H as <- <- <-.
      destruct (walkLoop_err _ _ _ _ _ _ _ _ _ _ Hloop _ eq_refl)
        as [Hf | Hv]; [left | right; left]; assumption.
Qed.

(** X9. The errors of the walk and where each one stops it. An error of
    the walk is one of four: the chain metadata could not be fetched,
    and nothing but fetches of metadata was done; a round could not be
    fetched, and that fetch is the last thing the walk did; the v1
    primitive refused a link, and that verification is the last thing
    the walk did (no round after a refused link is fetched); or the
    anchor is beyond [round-1], and nothing but fetches of metadata was
    done. *)
Theorem walk_error_cases round s e s' t :
  getTrustedPreviousSignature prims round s = (Err e, s', t) ->
  (exists c, e = CouldNotGetInfo c /\ Forall (eq EvInfo) t) \/
  (exists k c t0,
      e = CouldNotGetRound k c /\ t = t0 ++ [EvGet Indirect k]) \/
  (exists c b t0 info w1,
      e = VerifyingBeacon c /\ t = t0 ++ [EvVerifyBeacon b] /\
      cInfo (indirectClient (self s)) (world s) = (Ok info, w1) /\
      chainprim.VerifyBeacon prims (chain.PublicKey info) b = Some c) \/
  (exists k, e = UnexpectedTrustRound k /\ Forall (eq EvInfo) t).
Proof.
  intros H. pose proof (walk_walked round s) as Hw. rewrite H in Hw.
  inversion Hw; subst; clear Hw.
  - left. eexists. split; [reflexivity | repeat constructor].
  - left. eexists. split; [reflexivity | repeat constructor].
  - match goal with
    | Ha : anchored _ _ _ _ _ _ |- _ =>
        apply anchored_facts in Ha; destruct Ha as (_ & _ & Hinfo)
    end.
    match goal with
    | Hf : walkFrom _ _ _ ?a _ = _ |- _ =>
        destruct a as [tr0 ps0]; apply walkFrom_err in Hf;
        destruct Hf as [(k & c & t1 & -> & ->)
                       | [(c & b & t1 & -> & -> & Hb)
                         | (-> & _ & _ & ->)]]
    end.
    + right. left. exists k, c, (t0 ++ t1).
      split; [reflexivity | apply app_assoc].
    + right. right. left. exists c, b, (t0 ++ t1).
      do 2 eexists. split; [reflexivity |].
      split; [apply app_assoc |]. split; eassumption.
    + right. right. right. eexists. split; [reflexivity |].
      rewrite app_nil_r. exact Hinfo.
Qed.

(** ** The rounds a walk goes over *)

Lemma rounds_of_info t :
  Forall (eq EvInfo) t -> fetchedRounds t = [] /\ verifiedRounds t = [].
Proof.
  induction 1 as [| e t <- _ [IH1 IH2]]; [split; reflexivity |].
  split; cbn; assumption.
Qed.

Lemma walkLoop_rounds fuel info round :
  forall tr ps next s r s' t,
    walkLoop prims fuel info round tr ps next s = (r, s', t) ->
    forall tr' ps' next', r = Ok (tr', ps', next') ->
    fetchedRounds t = rangeN (tr + 1) (N.to_nat (tr' - tr)) /\
    verifiedRounds t = rangeN (tr + 1) (N.to_nat (tr' - tr)).
Proof.
  loop_induction fuel info round; intros tr' ps' next' E;
    try discriminate; try (injection E as <- <- <-).
  - rewrite N.sub_diag. split; reflexivity.
  - rewrite N.sub_diag. split; reflexivity.
  - match goal with
    | Hlt : (_ <? _) = true |- _ =>
        apply N.ltb_lt in Hlt; pose proof (inc64_succ _ _ Hlt) as Hinc
    end.
    match goal with
    | Hr : walkLoop _ fuel _ _ _ _ _ _ = _ |- _ =>
        destruct (IH _ _ _ _ _ _ _ Hr _ _ _ E) as (IHf & IHv);
        destruct (walkLoop_ok _ _ _ _ _ _ _ _ _ _ Hr _ _ _ E)
          as (Hle & _)
    end.
    rewrite Hinc in *.
    replace (N.to_nat (tr' - tr)) with (S (N.to_nat (tr' - (tr + 1))))
      by lia.
    cbn [rangeN]. unfold fetchedRounds, verifiedRounds in *.
    cbn [flat_map app linkOf chain.Round].
    rewrite IHf, IHv. split; reflexivity.
Qed.

Lemma walkFrom_rounds info round tr0 ps0 s ps s' t :
  walkFrom prims info round (tr0, ps0) s = (Ok ps, s', t) ->
  fetchedRounds t = rangeN (tr0 + 1) (N.to_nat (dec64 round - tr0)) /\
  verifiedRounds t = rangeN (tr0 + 1) (N.to_nat (dec64 round - tr0)).
Proof.
  rewrite walkFrom_eq. cbn [fst snd].
  destruct (walkLoop prims (walkFuel round tr0) info round tr0 ps0 None s)
    as [[lr s1] t1] eqn:Hloop.
  destruct lr as [[[tr ps1] next] | e]; [| discriminate].
  destruct (tr =? dec64 round) eqn:Heq; [| discriminate].
  apply N.eqb_eq in Heq. subst tr.
  intros H. injection H as _ _ <-.
  exact (walkLoop_rounds _ _ _ _ _ _ _ _ _ _ Hloop _ _ _ eq_refl).
Qed.

(** X10. A walk that returns a signature has fetched from the indirect
    client, once each and in increasing order, exactly the rounds after
    its anchor up to [round-1], and has given to the v1 primitive exactly
    the links of these rounds, in the same order: its cost is the
    distance from the anchor to [round-1], and nothing when the anchor
    is already there. *)
Theorem walk_rounds_are_consecutive round s ps s' t :
  getTrustedPreviousSignature prims round s = (Ok ps, s', t) ->
  fetchedRounds t
  = rangeN (anchorRound (pointOfTrust (self s)) round + 1)
      (N.to_nat (dec64 round - anchorRound (pointOfTrust (self s)) round))
  /\
  verifiedRounds t
  = rangeN (anchorRound (pointOfTrust (self s)) round + 1)
      (N.to_nat (dec64 round - anchorRound (pointOfTrust (self s)) round)).
Proof.
  intros H. pose proof (walk_walked round s) as Hw. rewrite H in Hw.
  inversion Hw; subst; clear Hw.
  - change (dec64 1) with 0. rewrite N.sub_0_l. split; reflexivity.
  - match goal with
    | Ha : anchored _ _ _ _ _ _ |- _ =>
        apply anchored_facts in Ha; destruct Ha as (Hfst & _ & Hinfo)
    end.
    apply rounds_of_info in Hinfo. destruct Hinfo as (Hi1 & Hi2).
    match goal with
    | Hf : walkFrom _ _ _ ?a _ = _ |- _ =>
        destruct a as [tr0 ps0]; apply walkFrom_rounds in Hf;
        destruct Hf as (Hf1 & Hf2)
    end.
    cbn [fst] in Hfst. subst tr0.
    unfold fetchedRounds, verifiedRounds in *.
    rewrite !flat_map_app, Hi1, Hi2, Hf1, Hf2. split; reflexivity.
Qed.

(** ** The cache against requests for older rounds *)

Lemma walk_cached_round_err round s pot info w1 :
  2 <= round ->
  pointOfTrust (self s) = Some pot ->
  Round pot = round ->
  cInfo (indirectClient (self s)) (world s) = (Ok info, w1) ->
  getTrustedPreviousSignature prims round s
  = (Err (UnexpectedTrustRound round), mkSt (self s) w1, [EvInfo]).
Proof.
  intros Hround Hpot Hsame Hinfo. rewrite walk_eq, Hinfo.
  replace (round =? 1) with false by (symmetry; apply N.eqb_neq; lia).
  cbv zeta. rewrite Hpot, Hsame, N.ltb_irrefl.
  pose proof (dec64_below round ltac:(lia)) as Hbelow.
  rewrite walkFrom_noloop by lia.
  replace (round =? dec64 round) with false
    by (symmetry; apply N.eqb_neq; lia).
  reflexivity.
Qed.

(** X11. For a round from 2 on, the walk returns the error "unexpected
    trust round" exactly when the chain metadata can be fetched and the
    cache holds a result of the requested round itself: a cache below
    the round is walked from, a cache above it is set aside for the
    genesis identifier, and only a cache at the round stops the walk. *)
Theorem unexpected_trust_round_iff round s :
  2 <= round ->
  round < two64 ->
  (exists k,
      fst (fst (getTrustedPreviousSignature prims round s))
      = Err (UnexpectedTrustRound k)) <->
  (exists info w1,
      cInfo (indirectClient (self s)) (world s) = (Ok info, w1)) /\
  (exists p, pointOfTrust (self s) = Some p /\ Round p = round).
Proof.
  intros Htwo Hrange. split.
  - intros [k Hk].
    destruct (getTrustedPreviousSignature prims round s)
      as [[r s'] t] eqn:H.
    cbn [fst] in Hk. subst r.
    pose proof (walk_walked round s) as Hw. rewrite H in Hw.
    inversion Hw; subst; clear Hw.
    split; [eauto |].
    match goal with
    | Ha : anchored _ _ _ _ _ _ |- _ =>
        destruct Ha as [pot Hpot Hslow | info2 w2 Hslow Hinfo2]
    end;
      match goal with
      | Hf : walkFrom _ _ _ _ _ = _ |- _ =>
          apply walkFrom_err in Hf;
          destruct Hf as [(k' & c & t1 & Hc & _)
                         | [(c & b & t1 & Hc & _)
                           | (Hc & Hlt & _ & _)]];
          try discriminate
      end;
      rewrite dec64_pred in Hlt by lia.
    + exists pot. split; [exact Hpot |].
      rewrite Hpot in Hslow. cbn [slowPath] in Hslow.
      apply N.ltb_ge in Hslow. lia.
    + lia.
  - intros [(info & w1 & Hinfo) (p & Hp & Hr)].
    rewrite (walk_cached_round_err round s p info w1 Htwo Hp Hr Hinfo).
    exists round. reflexivity.
Qed.

(** X12. What the cache does to the round before: after the walk for
    round [R+1] has returned a signature, with an indirect client that
    answers with the rounds it is asked for, the cache is at round [R],
    and a verification of round [R] that needs the walk (strict mode, or
    no hint) fails with the error "unexpected trust round", without
    fetching or verifying round [R]. *)
Theorem verify_of_cached_round_fails R s ps s1 t1 w info0 r info w1 :
  answersAskedRound (indirectClient (self s)) ->
  2 <= R ->
  R + 1 < two64 ->
  getTrustedPreviousSignature prims (R + 1) s = (Ok ps, s1, t1) ->
  Rnd r = R ->
  walkNeeded (self s1) r = true ->
  cInfo (indirectClient (self s)) w = (Ok info, w1) ->
  verify prims info0 r (mkSt (self s1) w)
  = (Err (UnexpectedTrustRound R), mkSt (self s1) w1, [EvInfo]).
Proof.
  intros Hh Htwo Hrange Hwalk Hr Hneed Hinfo.
  pose proof (walk_config _ _ _ _ _ Hwalk) as (_ & Hic & _ & _).
  assert (Hne : R + 1 <> 1) by lia.
  destruct (walk_post _ _ _ _ _ Hh Hne Hwalk)
    as [(n & Hpot & Hrnd & _) | (_ & Hone & _)];
    rewrite dec64_succ in * by lia; [| lia].
  rewrite verify_eq. cbn [self]. rewrite Hneed, Hr.
  rewrite (walk_cached_round_err R (mkSt (self s1) w) n info w1);
    cbn [self world]; try assumption; [reflexivity |].
  rewrite Hic. exact Hinfo.
Qed.

(** X13. The cache is not monotonic. After a walk for a round from 3 on
    has returned a signature, with an indirect client that answers with
    the rounds it is asked for, the cache holds round [round-1] with
    that signature, whatever it held before: a cache that was above the
    requested round has been replaced by a lower one. *)
Theorem walk_lowers_cache round s p ps s1 t :
  answersAskedRound (indirectClient (self s)) ->
  pointOfTrust (self s) = Some p ->
  round < Round p ->
  3 <= round ->
  round < two64 ->
  getTrustedPreviousSignature prims round s = (Ok ps, s1, t) ->
  exists n,
    pointOfTrust (self s1) = Some n /\
    Round n = round - 1 /\
    Signature n = ps /\
    Round n < Round p.
Proof.
  intros Hh Hp Hlt Hthree Hrange Hwalk.
  assert (Hne : round <> 1) by lia.
  destruct (walk_post _ _ _ _ _ Hh Hne Hwalk)
    as [(n & Hpot & Hrnd & Hsig) | (_ & Hone & _)];
    rewrite dec64_pred in * by lia; [| lia].
  exists n. repeat split; try assumption. lia.
Qed.

(** ** The edges of the walk: rounds 2 and 0 *)

(** X14. For round 2, a walk that does not start from the cache (the
    cache is empty or above round 2) fetches the chain metadata twice and
    returns the genesis identifier: the previous signature [verify] gets
    for round 2 is the one of round 1, and round 1 is neither fetched nor
    verified. *)
Theorem cold_walk_round_two s info w1 info2 w2 :
  slowPath (pointOfTrust (self s)) 2 = true ->
  cInfo (indirectClient (self s)) (world s) = (Ok info, w1) ->
  cInfo (indirectClient (self s)) w1 = (Ok info2, w2) ->
  getTrustedPreviousSignature prims 2 s
  = (Ok (chain.GroupHash info2), mkSt (self s) w2, [EvInfo; EvInfo]).
Proof.
  intros Hslow Hinfo Hinfo2. rewrite walk_eq, Hinfo.
  change (2 =? 1) with false. cbv zeta. rewrite Hinfo2.
  assert (Hgo :
    prepend [EvInfo; EvInfo]
      (walkFrom prims info 2 (1, chain.GroupHash info2)
         (mkSt (self s) w2))
    = (Ok (chain.GroupHash info2), mkSt (self s) w2, [EvInfo; EvInfo])).
  { rewrite walkFrom_noloop by (change (dec64 2) with 1; apply N.le_refl).
    reflexivity. }
  unfold slowPath in Hslow.
  destruct (pointOfTrust (self s)) as [p |]; [rewrite Hslow |]; exact Hgo.
Qed.

Lemma walkLoop_first info round tr ps next s :
  tr < dec64 round ->
  exists t',
    snd (walkLoop prims (walkFuel round tr) info round tr ps next s)
    = EvGet Indirect (tr + 1) :: t'.
Proof.
  intros Hlt. pose proof (inc64_succ _ _ Hlt) as Hinc.
  assert (Hf : walkFuel round tr = S (walkFuel round (inc64 tr)))
    by (unfold walkFuel; rewrite Hinc; lia).
  rewrite Hf.
  pose proof (walkLoop_turn (walkFuel round (inc64 tr)) info round tr ps
                next s) as T.
  destruct (walkLoop prims (S (walkFuel round (inc64 tr))) info round tr ps
              next s) as [[r s'] t].
  apply N.ltb_lt in Hlt.
  inversion T; subst; cbn [snd]; rewrite <- ?Hinc; eauto; congruence.
Qed.

Lemma walkFrom_trace info round a s :
  snd (walkFrom prims info round a s)
  = snd (walkLoop prims (walkFuel round (fst a)) info round
           (fst a) (snd a) None s).
Proof.
  rewrite walkFrom_eq.
  destruct (walkLoop prims (walkFuel round (fst a)) info round
              (fst a) (snd a) None s) as [[[[[tr ps] next] | e] s1] t];
    [| reflexivity].
  destruct (tr =? dec64 round); reflexivity.
Qed.

(** X15. Round 0 wraps around. For round 0 the walk computes [round-1]
    as 2^64-1, so a walk that does not start from the cache does not
    return at its anchor, as it does for rounds 1 and 2: once it has
    fetched the chain metadata twice it goes on to fetch round 2 from the
    indirect client, on its way to round 2^64-1. *)
Theorem walk_round_zero_wraps s info w1 info2 w2 :
  slowPath (pointOfTrust (self s)) 0 = true ->
  cInfo (indirectClient (self s)) (world s) = (Ok info, w1) ->
  cInfo (indirectClient (self s)) w1 = (Ok info2, w2) ->
  dec64 0 = two64 - 1 /\
  exists t',
    snd (getTrustedPreviousSignature prims 0 s)
    = EvInfo :: EvInfo :: EvGet Indirect 2 :: t'.
Proof.
  intros Hslow Hinfo Hinfo2. split; [reflexivity |].
  rewrite walk_eq, Hinfo.
  change (0 =? 1) with false. cbv zeta. rewrite Hinfo2.
  assert (Hgo : exists t',
    snd (prepend [EvInfo; EvInfo]
           (walkFrom prims info 0 (1, chain.GroupHash info2)
              (mkSt (self s) w2)))
    = EvInfo :: EvInfo :: EvGet Indirect 2 :: t').
  { unfold prepend. cbn [snd]. rewrite walkFrom_trace. cbn [fst snd].
    destruct (walkLoop_first info 0 1 (chain.GroupHash info2) None
                (mkSt (self s) w2)) as [t' Ht']; [reflexivity |].
    rewrite Ht'. exists t'. reflexivity. }
  unfold slowPath in Hslow.
  destruct (pointOfTrust (self s)) as [p |]; [rewrite Hslow |]; exact Hgo.
Qed.

(** ** Strict mode and the hint *)

(** X16. In strict mode the previous-signature hint of a round below the
    v2 threshold has no part in the verification: with any other hint,
    or none, [verify] makes the same calls, leaves the same state and
    returns the same error, or the same result with that other hint. *)
Theorem strict_ignores_hint info r h s :
  strict (self s) = true ->
  Rnd r < v2from (self s) ->
  verify prims info (set_PreviousSignature r h) s
  = (mapRes (fun rd => set_PreviousSignature rd h)
       (fst (fst (verify prims info r s))),
     snd (fst (verify prims info r s)),
     snd (verify prims info r s)).
Proof.
  intros Hstrict Hbelow. rewrite !verify_eq.
  assert (Hneed : forall x, Rnd x = Rnd r -> walkNeeded (self s) x = true).
  { intros x Hx. unfold walkNeeded, RandomData_Round.
    rewrite Hx, Hstrict. apply N.ltb_lt in Hbelow. rewrite Hbelow.
    reflexivity. }
  rewrite !Hneed by reflexivity.
  change (Rnd (set_PreviousSignature r h)) with (Rnd r).
  destruct (getTrustedPreviousSignature prims (Rnd r) s)
    as [[[ps | e] s1] t1]; [| reflexivity].
  cbn [fst snd].
  assert (Hfin :
    finalResult prims (self s) info (set_PreviousSignature r h) ps
    = mapRes (fun rd => set_PreviousSignature rd h)
        (finalResult prims (self s) info r ps)).
  { unfold finalResult, finalLink, RandomData_Signature.
    cbn [set_PreviousSignature Rnd SigV2 Sig version].
    destruct (v2from (self s) <=? Rnd r);
      match goal with
      | |- context [match ?o with Some _ => _ | None => _ end] =>
          destruct o
      end; reflexivity. }
  rewrite Hfin. reflexivity.
Qed.

(** ** The warm cache, and the errors of [Get] *)

(** X17. When the cache holds the round before the requested one (as
    after construction with that round as previous result, or after a
    walk), the walk fetches the chain metadata and returns the signature
    of the cached result: no round is fetched, nothing is verified and
    the cache stays as it is. The cached result is trusted as it is. *)
Theorem walk_from_cached_predecessor round s p info w1 :
  2 <= round ->
  round < two64 ->
  pointOfTrust (self s) = Some p ->
  Round p = round - 1 ->
  cInfo (indirectClient (self s)) (world s) = (Ok info, w1) ->
  getTrustedPreviousSignature prims round s
  = (Ok (Signature p), mkSt (self s) w1, [EvInfo]).
Proof.
  intros Htwo Hrange Hpot Hr Hinfo. rewrite walk_eq, Hinfo.
  replace (round =? 1) with false by (symmetry; apply N.eqb_neq; lia).
  cbv zeta. rewrite Hpot.
  replace (round <? Round p) with false
    by (symmetry; apply N.ltb_ge; lia).
  pose proof (dec64_pred round ltac:(lia) Hrange) as Hdec.
  rewrite walkFrom_noloop by lia.
  replace (Round p =? dec64 round) with true
    by (symmetry; apply N.eqb_eq; lia).
  reflexivity.
Qed.

Lemma finalResult_refused (v : verifyingClient W) info r ps e :
  finalResult prims v info r ps = Err e ->
  exists c,
    (e = VerificationV2Failed (finalLink v r ps) c /\
     chainprim.VerifyBeaconV2 prims (chain.PublicKey info)
       (finalLink v r ps) = Some c) \/
    (e = VerificationV1Failed (finalLink v r ps) c /\
     chainprim.VerifyBeacon prims (chain.PublicKey info)
       (finalLink v r ps) = Some c).
Proof.
  unfold finalResult. destruct (v2from v <=? Rnd r);
    match goal with
    | |- context [match ?o with Some _ => _ | None => _ end] =>
        destruct o as [c |] eqn:Ho
    end; intros H; try discriminate; injection H as <-; exists c;
    [left | right]; auto.
Qed.

Lemma finalLink_round (v : verifyingClient W) r ps :
  chain.Round (finalLink v r ps) = Rnd r.
Proof. unfold finalLink. destruct (v2from v <=? Rnd r); reflexivity. Qed.

(** X18. [Get] fails closed, and its errors tell where: an error of
    [Get] is the error of the fetch of the chain metadata, as the
    collaborator gave it; or the error of the fetch of the round, as the
    wrapped client gave it, with nothing verified; or an error of the
    trust-chain walk for the round of the fetched result; or the error
    "verification failed" that names the link of that round which the
    primitive refused. *)
Theorem Get_error_cases round s e s' t :
  Get prims round s = (Err e, s', t) ->
  (exists w1,
      cInfo (indirectClient (self s)) (world s) = (Err e, w1) /\
      s' = mkSt (self s) w1 /\ t = [EvInfo]) \/
  (exists info w1 w2,
      cInfo (indirectClient (self s)) (world s) = (Ok info, w1) /\
      cGet (vClient (self s)) w1 round = (Err e, w2) /\
      s' = mkSt (self s) w2 /\ t = [EvInfo; EvGet Direct round]) \/
  (exists info w1 r w2,
      cInfo (indirectClient (self s)) (world s) = (Ok info, w1) /\
      cGet (vClient (self s)) w1 round = (Ok r, w2) /\
      ((exists tw,
           getTrustedPreviousSignature prims (Round r) (mkSt (self s) w2)
           = (Err e, s', tw) /\
           t = EvInfo :: EvGet Direct round :: tw) \/
       (exists b c,
           chain.Round b = Round r /\
           ((e = VerificationV2Failed b c /\
             chainprim.VerifyBeaconV2 prims (chain.PublicKey info) b
             = Some c) \/
            (e = VerificationV1Failed b c /\
             chainprim.VerifyBeacon prims (chain.PublicKey info) b
             = Some c))))).
Proof.
  rewrite Get_eq.
  destruct (cInfo (indirectClient (self s)) (world s))
    as [[info | e1] w1] eqn:Hinfo.
  2: { intros H. injection H as <- <- <-. left. exists w1. auto. }
  destruct (cGet (vClient (self s)) w1 round) as [[r | e1] w2] eqn:Hget.
  2: { intros H. injection H as <- <- <-. right. left.
       exists info, w1, w2. auto. }
  destruct (verify prims info (asRandomData (self s) r)
              (mkSt (self s) w2)) as [[[rd' | e1] s3] t3] eqn:Hv;
    [discriminate |].
  intros H. injection H as <- <- <-. right. right.
  exists info, w1, r, w2. split; [reflexivity |]. split; [exact Hget |].
  assert (Hrnd : Rnd (asRandomData (self s) r) = Round r)
    by (destruct r; reflexivity).
  rewrite verify_eq in Hv. cbn [self] in Hv. rewrite Hrnd in Hv.
  destruct (walkNeeded (self s) (asRandomData (self s) r)).
  - destruct (getTrustedPreviousSignature prims (Round r)
                (mkSt (self s) w2)) as [[[ps | e2] sw] tw].
    + injection Hv as Hfin _ _. right.
      destruct (finalResult_refused _ _ _ _ _ Hfin) as (c & Hc).
      exists (finalLink (self s) (asRandomData (self s) r) ps), c.
      rewrite finalLink_round. split; [exact Hrnd | exact Hc].
    + injection Hv as <- <- <-. left. exists tw. auto.
  - injection Hv as Hfin _ _. right.
    destruct (finalResult_refused _ _ _ _ _ Hfin) as (c & Hc).
    eexists (finalLink (self s) (asRandomData (self s) r) _), c.
    rewrite finalLink_round. split; [exact Hrnd | exact Hc].
Qed.

End Properties.

(** * The properties on the small chain *)

Import Scenario.

Lemma server_answers stream : answersAskedRound (server stream).
Proof.
  intros w n r w'. cbn.
  destruct ((1 <=? n) && (n <=? 9)); intros H; inversion H. reflexivity.
Qed.

Lemma server_info stream : servesInfo (server stream) info.
Proof. intros w i w' H. inversion H. reflexivity. Qed.

Lemma server_same_info stream : sameInfoAlways (server stream).
Proof. intros w w'. reflexivity. Qed.

Lemma server_same_round stream : sameRoundAlways (server stream).
Proof. intros w w' n. reflexivity. Qed.

(** The claim C1 as the spec words it fails on the code: after [Get] has
    verified round 3 with a chain walk, the walk for round 4 fetches round
    3 from the indirect client and verifies its link again, and 3 is not
    above 3. *)
Lemma next_walk_fetches_verified_round_again :
  resultOf (Get prims 3 s0) = Ok verified3 /\
  traceOf (getTrustedPreviousSignature prims 4 (after (Get prims 3 s0)))
  = [EvInfo; EvGet Indirect 3;
     EvVerifyBeacon (linkOf (sigOf 2) 3 (sigOf 3))] /\
  ~ onlyRoundsAbove 3
      (traceOf (getTrustedPreviousSignature prims 4 (after (Get prims 3 s0)))).
Proof.
  split; [reflexivity |]. split; [reflexivity |].
  intros H. inversion H as [| e t _ Ht]; subst.
  inversion Ht as [| e' t' He' _]; subst.
  specialize (He' 3 eq_refl). lia.
Qed.

Lemma next_walk_starts_at_verified_round_witness :
  Forall (fun e => forall n, eventRound e = Some n -> n = 3)
    (snd (getTrustedPreviousSignature prims (3 + 1)
            (after (verify prims info (asRandomData (self s0) (served 3))
                      s0)))).
Proof.
  apply (next_walk_starts_at_verified_round prims info
           (asRandomData (self s0) (served 3)) s0
           (set_Random (asRandomData (self s0) (served 3)) [x02; x03])
           (after (verify prims info (asRandomData (self s0) (served 3)) s0))
           (traceOf
              (verify prims info (asRandomData (self s0) (served 3)) s0))).
  - apply server_answers.
  - reflexivity.
  - cbn. lia.
  - reflexivity.
  - reflexivity.
Defined.

(** On the failing input of C2, a stream that carries round 1 as a result
    that is not a [RandomData], with the randomness bytes [ff]: [Watch]
    sends the item with these bytes, which are not the randomness derived
    from its verified signature, where [Get] returns the derived bytes. *)
Theorem watch_sends_input_randomness :
  resultOf (Watch prims (start (server [served 1]))) = Ok [served 1] /\
  Randomness (served 1) = [xff] /\
  chainprim.RandomnessFromSignature prims (Signature (served 1))
  = [x00; x01] /\
  option_map Randomness
    (match resultOf (Get prims 1 s0) with Ok r => Some r | Err _ => None end)
  = Some [x00; x01].
Proof. repeat split. Qed.

(** The claim C3 as the spec words it fails on the code: the second
    [Get] of round 3 fetches the chain metadata twice and the round once,
    and verifies the round once more. *)
Lemma second_get_fetches_and_verifies :
  resultOf (Get prims 3 s0) = Ok verified3 /\
  traceOf (Get prims 3 (after (Get prims 3 s0)))
  = [EvInfo; EvGet Direct 3; EvInfo;
     EvVerifyBeacon (linkOf (sigOf 2) 3 (sigOf 3))] /\
  traceOf (Get prims 3 (after (Get prims 3 s0))) <> [].
Proof. repeat split. discriminate. Qed.

Lemma second_get_repeats_no_walk_witness :
  exists s2 ti ev,
    Get prims 3 (after (Get prims 3 s0))
    = (Ok verified3, s2, EvInfo :: EvGet Direct 3 :: ti ++ [ev]) /\
    Forall (eq EvInfo) ti /\
    isVerification ev = true /\
    eventRound ev = Some (Round verified3).
Proof.
  apply (second_get_repeats_no_walk prims 3 s0 verified3
           (after (Get prims 3 s0)) (traceOf (Get prims 3 s0))).
  - apply server_same_info.
  - apply server_same_round.
  - apply server_answers.
  - reflexivity.
  - cbn. lia.
Defined.

Lemma bytes_eqb_length a :
  forall b, bytes_eqb a b = true -> List.length a = List.length b.
Proof.
  induction a as [| x a IH]; intros [| y b] H; cbn in H;
    try discriminate; [reflexivity |].
  apply andb_prop in H. cbn. f_equal. apply IH. tauto.
Qed.

(** The links of the small chain accept signatures of at most two
    bytes. *)
Lemma check_accepts_short b sig :
  check b sig = None -> (List.length sig <= 2)%nat.
Proof.
  unfold check.
  destruct (bytes_eqb sig (sign (chain.PreviousSig b) (chain.Round b)))
    eqn:E; [| discriminate].
  intros _. apply bytes_eqb_length in E. rewrite E. unfold sign.
  cbn [List.length].
  pose proof (firstn_le_length 1 (chain.PreviousSig b)). lia.
Qed.

(** The claim C4 as the spec words it fails on the code: a client
    constructed with a result whose signature no link accepts is in a
    state where the cache holds that result, and no chain of accepted
    links leads to its signature from the genesis identifier. *)
Lemma constructed_cache_is_not_verified :
  reachable prims (server []) (Some (tampered 7)) true 1000
    (seeded (server []) (tampered 7)) /\
  pointOfTrust (self (seeded (server []) (tampered 7)))
  = Some (tampered 7) /\
  ~ verifiedToGenesis prims info (tampered 7) /\
  ~ chained prims (chain.PublicKey info) (chain.GroupHash info)
      (Signature (tampered 7)).
Proof.
  split; [apply reach_new |]. split; [reflexivity |]. split.
  - intros H. unfold verifiedToGenesis in H. cbn in H.
    inversion H as [| n s s' Hl Hv Hn].
    apply check_accepts_short in Hv. cbn in Hv. lia.
  - intros H. cbn in H. inversion H as [| s m s' Hl Hv].
    apply check_accepts_short in Hv. cbn in Hv. lia.
Qed.

Lemma cache_verified_to_anchor_witness :
  chainedToAnchor prims info None (served 2) /\
  (answersAskedRound (server []) ->
   verifiedToAnchor prims info None (served 2)).
Proof.
  apply (cache_verified_to_anchor prims (server []) None true 1000 info
           (runOp prims (OpGet 3) s0)).
  - apply server_info.
  - apply reach_op. apply reach_new.
  - reflexivity.
Defined.

Lemma walk_error_keeps_cache_witness :
  resultOf (getTrustedPreviousSignature prims 12
              (seeded (server []) (served 2)))
  = Err (CouldNotGetRound 10 (ExternalErr "no such round")) /\
  pointOfTrust
    (self (after (getTrustedPreviousSignature prims 12
                    (seeded (server []) (served 2)))))
  = Some (served 2).
Proof.
  split; [reflexivity |].
  apply (proj1
           (walk_error_keeps_cache prims 12 (seeded (server []) (served 2))
              (resultOf (getTrustedPreviousSignature prims 12
                           (seeded (server []) (served 2))))
              (after (getTrustedPreviousSignature prims 12
                        (seeded (server []) (served 2))))
              (traceOf (getTrustedPreviousSignature prims 12
                          (seeded (server []) (served 2))))
              eq_refl)
           (CouldNotGetRound 10 (ExternalErr "no such round"))).
  reflexivity.
Defined.

Lemma no_info_no_result_witness :
  (forall round,
     Get prims round (start (offline [served 1]))
     = (Err (ExternalErr "unreachable"), start (offline [served 1]),
        [EvInfo])) /\
  Watch prims (start (offline [served 1]))
  = (Ok [], start (offline [served 1]), [EvInfo]).
Proof.
  apply (no_info_no_result prims (start (offline [served 1]))
           (ExternalErr "unreachable") tt).
  reflexivity.
Defined.

(** The stream of the spec: round 1, round 2 with a signature that was
    tampered with, round 3. *)
Lemma watch_skips_tampered_round :
  resultOf (Watch prims (start (server [served 1; tampered 2; served 3])))
  = Ok [served 1; served 3].
Proof. reflexivity. Qed.

Lemma watch_forwards_verified_witness :
  map fst (verdicts prims info [served 1; tampered 2; served 3]
             (start (server [served 1; tampered 2; served 3])))
  = [served 1; tampered 2; served 3] /\
  exists out,
    fst (fst (Watch prims
                (start (server [served 1; tampered 2; served 3]))))
    = Ok out /\
    Forall2 sameItem out
      (map fst
         (filter (fun x => isOk (snd x))
            (verdicts prims info [served 1; tampered 2; served 3]
               (start (server [served 1; tampered 2; served 3]))))).
Proof.
  apply (watch_forwards_verified prims
           (start (server [served 1; tampered 2; served 3]))
           info tt [served 1; tampered 2; served 3] tt);
    reflexivity.
Defined.

(** The claim C9 as the spec words it fails on the code: the adapter
    returns a [RandomData] as it is, so round 10, at or after the
    threshold 5, comes out of the adapter with its signature in the v1
    slot, an empty v2 slot and no tag. *)
Lemma adapter_keeps_untagged_RandomData :
  v2from v2client <= Round (PtrRandomData plain10) /\
  asRandomData v2client (PtrRandomData plain10) = plain10 /\
  SigV2 (asRandomData v2client (PtrRandomData plain10))
  <> Signature (PtrRandomData plain10) /\
  version (asRandomData v2client (PtrRandomData plain10)) <> 2.
Proof.
  split; [cbn; lia |]. split; [reflexivity |].
  split; cbn; discriminate.
Qed.

(** The claim C10 as the spec words it fails on the code: with round 5
    in the cache and a server whose metadata cannot be fetched, the walk
    for round 5 returns the error of the fetch, not the error "unexpected
    trust round". *)
Lemma walk_at_cached_round_without_info :
  pointOfTrust (self (seeded (offline []) (served 5))) = Some (served 5) /\
  Round (served 5) = 5 /\
  resultOf (getTrustedPreviousSignature prims 5
              (seeded (offline []) (served 5)))
  = Err (CouldNotGetInfo (ExternalErr "unreachable")) /\
  (forall k,
     resultOf (getTrustedPreviousSignature prims 5
                 (seeded (offline []) (served 5)))
     <> Err (UnexpectedTrustRound k)).
Proof. repeat split. discriminate. Qed.

Lemma walk_at_cached_round_witness :
  getTrustedPreviousSignature prims 5 (seeded (server []) (served 5))
  = (Err (UnexpectedTrustRound 5), seeded (server []) (served 5), [EvInfo]).
Proof.
  apply (walk_at_cached_round prims 5 (seeded (server []) (served 5))
           (served 5)).
  - lia.
  - reflexivity.
  - reflexivity.
Defined.

Lemma walk_round_one_witness :
  getTrustedPreviousSignature prims 1 s0 = (Ok groupHash, s0, [EvInfo]).
Proof. apply (walk_round_one prims s0 info tt). reflexivity. Defined.

Lemma Get_randomness_witness :
  exists rd,
    verified3 = PtrRandomData rd /\
    Randomness verified3
    = chainprim.RandomnessFromSignature prims
        (if v2from (self s0) <=? Rnd rd then SigV2 rd else Sig rd).
Proof.
  apply (Get_randomness prims 3 s0 verified3 (after (Get prims 3 s0))
           (traceOf (Get prims 3 s0))).
  reflexivity.
Defined.

Lemma cold_walk_starts_after_round_one_witness :
  Forall (walkOrInfoEvent 1 (dec64 5))
    (snd (getTrustedPreviousSignature prims 5 s0)).
Proof. apply (cold_walk_starts_after_round_one prims 5 s0). reflexivity. Defined.


Lemma Get_accepted_witness :
  exists info w1,
    cInfo (indirectClient (self s0)) (world s0) = (Ok info, w1) /\
    acceptedBy prims (self s0) (chain.PublicKey info) verified3.
Proof.
  apply (Get_accepted prims 3 s0 verified3
           (after (Get prims 3 s0)) (traceOf (Get prims 3 s0))).
  reflexivity.
Defined.

Lemma Watch_accepted_witness :
  Forall
    (acceptedBy prims
       (self (start (server [served 1; tampered 2; served 3])))
       (chain.PublicKey info))
    [served 1; served 3].
Proof.
  apply (Watch_accepted prims
           (start (server [served 1; tampered 2; served 3])) info tt
           [served 1; served 3]);
    reflexivity.
Defined.

Lemma strict_Get_linked_witness :
  linked prims (chain.PublicKey info) (1, chain.GroupHash info)
    (Round verified3, Signature verified3) \/
  exists p,
    pointOfTrust (self s0) = Some p /\
    linked prims (chain.PublicKey info) (Round p, Signature p)
      (Round verified3, Signature verified3).
Proof.
  apply (strict_Get_linked prims info 3 s0 verified3
           (after (Get prims 3 s0)) (traceOf (Get prims 3 s0))).
  - apply server_info.
  - reflexivity.
  - reflexivity.
  - cbn. lia.
  - cbn. lia.
  - reflexivity.
Defined.

Lemma walk_error_cases_witness :
  (exists c,
      CouldNotGetRound 10 (ExternalErr "no such round")
      = CouldNotGetInfo c /\
      Forall (eq EvInfo)
        (traceOf (getTrustedPreviousSignature prims 12
                    (seeded (server []) (served 2))))) \/
  (exists k c t0,
      CouldNotGetRound 10 (ExternalErr "no such round")
      = CouldNotGetRound k c /\
      traceOf (getTrustedPreviousSignature prims 12
                 (seeded (server []) (served 2)))
      = t0 ++ [EvGet Indirect k]) \/
  (exists c b t0 info w1,
      CouldNotGetRound 10 (ExternalErr "no such round")
      = VerifyingBeacon c /\
      traceOf (getTrustedPreviousSignature prims 12
                 (seeded (server []) (served 2)))
      = t0 ++ [EvVerifyBeacon b] /\
      cInfo (indirectClient (self (seeded (server []) (served 2))))
        (world (seeded (server []) (served 2)))
      = (Ok info, w1) /\
      chainprim.VerifyBeacon prims (chain.PublicKey info) b = Some c) \/
  (exists k,
      CouldNotGetRound 10 (ExternalErr "no such round")
      = UnexpectedTrustRound k /\
      Forall (eq EvInfo)
        (traceOf (getTrustedPreviousSignature prims 12
                    (seeded (server []) (served 2))))).
Proof.
  apply (walk_error_cases prims 12 (seeded (server []) (served 2))
           (CouldNotGetRound 10 (ExternalErr "no such round"))
           (after (getTrustedPreviousSignature prims 12
                     (seeded (server []) (served 2))))
           (traceOf (getTrustedPreviousSignature prims 12
                       (seeded (server []) (served 2))))).
  reflexivity.
Defined.

Lemma walk_rounds_are_consecutive_witness :
  fetchedRounds (traceOf (getTrustedPreviousSignature prims 5 s0))
  = rangeN (anchorRound (pointOfTrust (self s0)) 5 + 1)
      (N.to_nat (dec64 5 - anchorRound (pointOfTrust (self s0)) 5))
  /\
  verifiedRounds (traceOf (getTrustedPreviousSignature prims 5 s0))
  = rangeN (anchorRound (pointOfTrust (self s0)) 5 + 1)
      (N.to_nat (dec64 5 - anchorRound (pointOfTrust (self s0)) 5)).
Proof.
  apply (walk_rounds_are_consecutive prims 5 s0 (sigOf 4)
           (after (getTrustedPreviousSignature prims 5 s0))
           (traceOf (getTrustedPreviousSignature prims 5 s0))).
  reflexivity.
Defined.

Lemma unexpected_trust_round_iff_witness :
  (exists k,
      fst (fst (getTrustedPreviousSignature prims 5
                  (seeded (server []) (served 5))))
      = Err (UnexpectedTrustRound k)) <->
  (exists info w1,
      cInfo (indirectClient (self (seeded (server []) (served 5))))
        (world (seeded (server []) (served 5)))
      = (Ok info, w1)) /\
  (exists p,
      pointOfTrust (self (seeded (server []) (served 5))) = Some p /\
      Round p = 5).
Proof.
  apply (unexpected_trust_round_iff prims 5
           (seeded (server []) (served 5))).
  - lia.
  - reflexivity.
Defined.

Lemma verify_of_cached_round_fails_witness :
  verify prims info (asRandomData (self s0) (served 3))
    (mkSt (self (after (getTrustedPreviousSignature prims (3 + 1) s0))) tt)
  = (Err (UnexpectedTrustRound 3),
     mkSt (self (after (getTrustedPreviousSignature prims (3 + 1) s0))) tt,
     [EvInfo]).
Proof.
  apply (verify_of_cached_round_fails prims 3 s0 (sigOf 3)
           (after (getTrustedPreviousSignature prims (3 + 1) s0))
           (traceOf (getTrustedPreviousSignature prims (3 + 1) s0))
           tt info (asRandomData (self s0) (served 3)) info tt).
  - apply server_answers.
  - lia.
  - reflexivity.
  - reflexivity.
  - reflexivity.
  - reflexivity.
  - reflexivity.
Defined.

Lemma walk_lowers_cache_witness :
  exists n,
    pointOfTrust
      (self (after (getTrustedPreviousSignature prims 4
                      (after (Get prims 6 s0)))))
    = Some n /\
    Round n = 4 - 1 /\
    Signature n = sigOf 3 /\
    Round n < Round (served 5).
Proof.
  apply (walk_lowers_cache prims 4 (after (Get prims 6 s0)) (served 5)
           (sigOf 3)
           (after (getTrustedPreviousSignature prims 4
                     (after (Get prims 6 s0))))
           (traceOf (getTrustedPreviousSignature prims 4
                       (after (Get prims 6 s0))))).
  - apply server_answers.
  - reflexivity.
  - reflexivity.
  - lia.
  - reflexivity.
  - reflexivity.
Defined.

Lemma cold_walk_round_two_witness :
  getTrustedPreviousSignature prims 2 s0
  = (Ok (chain.GroupHash info), mkSt (self s0) tt, [EvInfo; EvInfo]).
Proof.
  apply (cold_walk_round_two prims s0 info tt info tt); reflexivity.
Defined.

Lemma walk_round_zero_wraps_witness :
  dec64 0 = two64 - 1 /\
  exists t',
    snd (getTrustedPreviousSignature prims 0 s0)
    = EvInfo :: EvInfo :: EvGet Indirect 2 :: t'.
Proof.
  apply (walk_round_zero_wraps prims s0 info tt info tt); reflexivity.
Defined.

Lemma strict_ignores_hint_witness :
  verify prims info
    (set_PreviousSignature (asRandomData (self s0) (served 3))
       (Some [x09]))
    s0
  = (mapRes (fun rd => set_PreviousSignature rd (Some [x09]))
       (fst (fst (verify prims info (asRandomData (self s0) (served 3))
                    s0))),
     snd (fst (verify prims info (asRandomData (self s0) (served 3)) s0)),
     snd (verify prims info (asRandomData (self s0) (served 3)) s0)).
Proof.
  apply (strict_ignores_hint prims info
           (asRandomData (self s0) (served 3)) (Some [x09]) s0).
  - reflexivity.
  - cbn. lia.
Defined.

Lemma walk_from_cached_predecessor_witness :
  getTrustedPreviousSignature prims 6 (seeded (server []) (served 5))
  = (Ok (Signature (served 5)), seeded (server []) (served 5), [EvInfo]).
Proof.
  apply (walk_from_cached_predecessor prims 6
           (seeded (server []) (served 5)) (served 5) info tt).
  - lia.
  - reflexivity.
  - reflexivity.
  - reflexivity.
  - reflexivity.
Defined.

Lemma Get_error_cases_witness :
  (exists w1,
      cInfo (indirectClient (self s0)) (world s0)
      = (Err (ExternalErr "no such round"), w1) /\
      after (Get prims 12 s0) = mkSt (self s0) w1 /\
      traceOf (Get prims 12 s0) = [EvInfo]) \/
  (exists info w1 w2,
      cInfo (indirectClient (self s0)) (world s0) = (Ok info, w1) /\
      cGet (vClient (self s0)) w1 12
      = (Err (ExternalErr "no such round"), w2) /\
      after (Get prims 12 s0) = mkSt (self s0) w2 /\
      traceOf (Get prims 12 s0) = [EvInfo; EvGet Direct 12]) \/
  (exists info w1 r w2,
      cInfo (indirectClient (self s0)) (world s0) = (Ok info, w1) /\
      cGet (vClient (self s0)) w1 12 = (Ok r, w2) /\
      ((exists tw,
           getTrustedPreviousSignature prims (Round r) (mkSt (self s0) w2)
           = (Err (ExternalErr "no such round"), after (Get prims 12 s0),
              tw) /\
           traceOf (Get prims 12 s0) = EvInfo :: EvGet Direct 12 :: tw) \/
       (exists b c,
           chain.Round b = Round r /\
           ((ExternalErr "no such round" = VerificationV2Failed b c /\
             chainprim.VerifyBeaconV2 prims (chain.PublicKey info) b
             = Some c) \/
            (ExternalErr "no such round" = VerificationV1Failed b c /\
             chainprim.VerifyBeacon prims (chain.PublicKey info) b
             = Some c))))).
Proof.
  apply (Get_error_cases prims 12 s0 (ExternalErr "no such round")
           (after (Get prims 12 s0)) (traceOf (Get prims 12 s0))).
  reflexivity.
Defined.
